(** * libprocess HTTP layer: content negotiation, streaming pipe, query
      codec, response framing and request rendering

    A shallow embedding of [3rdparty/libprocess/src/http.cpp].  C++
    [std::string] is [string]; [hashmap<string, string>] and [std::map] are
    [gmap string _], visited in an order that is a parameter; [Option<T>]
    is [option T]; [Try<T>] is an error message or a value and [Future<T>]
    is pending, ready or failed.  The pipe's shared block is a record
    threaded through the operations, together with the store of the
    futures handed out and the trace of the calls of [Promise::set] and
    [Promise::fail].  The first part is the program, the second part its
    properties. *)

From Stdlib Require Import QArith Ascii String.
From stdpp Require Import base gmap strings list fin_maps pretty sorting.

Local Open Scope string_scope.
Local Open Scope list_scope.
Local Open Scope stdpp_scope.
Local Open Scope nat_scope.

(** [chars s]: the characters of [s], to state facts about its content. *)
Definition chars (s : string) : list ascii := list_ascii_of_string s.

(** The stout string helpers used by http.cpp. *)
Module stout.

Inductive Mode := PREFIX | SUFFIX | ANY.

(** [delims.find(c) != npos] *)
Fixpoint contains (c : ascii) (delims : string) : bool :=
  match delims with
  | "" => false
  | String d delims' => if decide (c = d) then true else contains c delims'
  end.

(** Modelled from the spec: [strings::startsWith] (stout, not in this
    slice); a prefix test. *)
Definition startsWith (s prefix : string) : bool := String.prefix prefix s.

(** Modelled from the spec: [strings::tokenize] (stout, not in this
    slice); cuts [s] at every character of [delims] and keeps the
    non-empty pieces in order. [cur] is the piece being read. *)
Fixpoint tokenize_from (delims s cur : string) : list string :=
  match s with
  | "" => if decide (cur = "") then [] else [cur]
  | String c s' =>
      if contains c delims
      then (if decide (cur = "") then tokenize_from delims s' ""
            else cur :: tokenize_from delims s' "")
      else tokenize_from delims s' (cur +:+ String c "")
  end.

Definition tokenize (s delims : string) : list string :=
  tokenize_from delims s "".

(** Modelled from the spec: [strings::split] with its optional bound [n]
    (stout, not in this slice); cuts at every delimiter character and
    keeps empty pieces; once [n - 1] pieces are out, the rest of the
    string is the last piece. [size] is the number of pieces so far. *)
Fixpoint split_from (delims : string) (n : option nat) (s cur : string)
    (size : nat) : list string :=
  match s with
  | "" => [cur]
  | String c s' =>
      if contains c delims
      then (if decide (n = Some (S (S size))) then [cur; s']
            else cur :: split_from delims n s' "" (S size))
      else split_from delims n s' (cur +:+ String c "") size
  end.

Definition split (s delims : string) (n : option nat) : list string :=
  match n with
  | Some 0 => []
  | _ => split_from delims n s "" 0
  end.

(** Modelled from the spec: [strings::pairs] (stout, not in this slice);
    tokenizes on [delims1], then each token on [delims2]; a token with
    exactly two parts [k], [v] appends [v] to the values of [k]. *)
Definition pairs (s delims1 delims2 : string) : gmap string (list string) :=
  foldl (λ result token,
           match tokenize token delims2 with
           | [k; v] => <[k := default [] (result !! k) ++ [v]]> result
           | _ => result
           end)
        ∅ (tokenize s delims1).

(** Erasing the first occurrence of [substring] ([find] then [erase]). *)
Fixpoint erase_first (substring s : string) : option string :=
  if String.prefix substring s
  then Some (String.substring (String.length substring)
               (String.length s - String.length substring) s)
  else match s with
       | "" => None
       | String c s' => String c <$> erase_first substring s'
       end.

Fixpoint remove_any (fuel : nat) (substring result : string) : string :=
  match fuel with
  | 0 => result
  | S fuel' =>
      match erase_first substring result with
      | None => result
      | Some result' => remove_any fuel' substring result'
      end
  end.

Definition drop_prefix (n : nat) (s : string) : string :=
  String.substring n (String.length s - n) s.

Definition endsWith (s suffix : string) : bool :=
  (String.length suffix <=? String.length s)%nat &&
  bool_decide (drop_prefix (String.length s - String.length suffix) s = suffix).

(** Modelled from the spec: [strings::remove] (stout, not in this slice).
    [PREFIX] and [SUFFIX] drop [substring] once when [from] starts (ends)
    with it; [ANY] erases occurrences until none is left.  Every erasure
    of a non-empty substring shortens the string, so the length of [from]
    bounds the number of rounds. *)
Definition remove (from substring : string) (mode : Mode) : string :=
  match mode with
  | PREFIX =>
      if startsWith from substring
      then drop_prefix (String.length substring) from else from
  | SUFFIX =>
      if endsWith from substring
      then String.substring 0 (String.length from - String.length substring) from
      else from
  | ANY => remove_any (String.length from) substring from
  end.

(** Modelled from the spec: [strings::join(separator, vector)] (stout, not
    in this slice); the pieces with the separator between them. *)
Definition join (separator : string) (pieces : list string) : string :=
  String.concat separator pieces.

End stout.

(** [Try<T>]: an error message or a value. *)
Inductive Try (T : Type) :=
  | Error (message : string)
  | Ok (value : T).
Arguments Error {T} message.
Arguments Ok {T} value.

(** [Future<T>]: pending, ready with a value, or failed with a message. *)
Inductive Future (T : Type) :=
  | PENDING
  | READY (value : T)
  | FAILED (message : string).
Arguments PENDING {T}.
Arguments READY {T} value.
Arguments FAILED {T} message.

(** [future.then(k)]: [k] runs on the value once the future is ready; a
    failure is passed on unchanged. *)
Definition then_ {A B} (f : Future A) (k : A → Future B) : Future B :=
  match f with
  | PENDING => PENDING
  | READY value => k value
  | FAILED message => FAILED message
  end.

Definition CRLF : string := String "013" (String "010" "").
Definition LF : string := String "010" "".
Definition TAB : string := String "009" "".

(** The loop [foreach (x, xs) { ... return v; ... }]: [body] answers
    [Some v] where the C++ body returns [v], and [None] where it falls
    through to the next element. *)
Fixpoint foreach {A R} (xs : list A) (body : A → option R) : option R :=
  match xs with
  | [] => None
  | x :: xs' =>
      match body x with
      | Some v => Some v
      | None => foreach xs' body
      end
  end.

(** ** Content negotiation: [Request::accepts] *)

Module Request.

Record Request := {
  method : string;
  headers : gmap string string;
  body : string;
}.

Section accepts.
(** [numify<double>] and the test [value > 0] on a double belong to stout
    and to the floating-point unit; the development is parametric in
    them. *)
Context {double : Type}.
Variable numify : string → option double.
Variable positive : double → bool.

Definition accepts (request : Request) (encoding : string) : bool :=
  match headers request !! "Accept-Encoding" with
  | None => false
  | Some accepted =>
      let accepted := stout.remove accepted " " stout.ANY in
      let accepted := stout.remove accepted TAB stout.ANY in
      let accepted := stout.remove accepted LF stout.ANY in
      let candidates := [encoding; "*"] in
      default false
        (foreach candidates (λ candidate,
           foreach (stout.tokenize accepted ",") (λ _encoding,
             if stout.startsWith _encoding candidate then
               let values := stout.pairs _encoding ";" "=" in
               match values !! "q" with
               | None => Some true
               | Some qs =>
                   if bool_decide (length qs ≠ 1) then Some true
                   else
                     match numify (default "" (qs !! 0)) with
                     | Some value => Some (positive value)
                     | None => Some false
                     end
               end
             else None)))
  end.

(** *** The decision of §4.4, in the spec's words *)

(** The header value with its spaces, tabs and newlines stripped. *)
Definition normalized (accepted : string) : string :=
  stout.remove (stout.remove (stout.remove accepted " " stout.ANY)
                  TAB stout.ANY) LF stout.ANY.

(** The [q] entries of a coding specification: its parts between [;]
    whose non-empty pieces between [=] are exactly two, the first being
    [q]; the entry's text is the second piece.  So [q=0.5] is an entry
    with the text [0.5], and [q], [q=], [q=0=0] and [Q=0] are none. *)
Definition q_entries (token : string) : list string :=
  omap (λ part,
          match stout.tokenize part "=" with
          | [name; text] => if decide (name = "q") then Some text else None
          | _ => None
          end)
       (stout.tokenize token ";").

(** What a coding specification says about [q]: it has no [q] entry, or
    more than one, or one whose text is no number, or one whose text is a
    number. *)
Inductive qparam :=
  | q_absent
  | q_repeated
  | q_unparseable (text : string)
  | q_value (value : double).

Definition q_parameter (token : string) : qparam :=
  match q_entries token with
  | [] => q_absent
  | [text] =>
      match numify text with
      | Some value => q_value value
      | None => q_unparseable text
      end
  | _ => q_repeated
  end.

(** The token that decides: the first one that starts with the encoding
    name, and the first one that starts with [*] when there is none. *)
Definition consulted (tokens : list string) (encoding : string) : option string :=
  match List.find (λ token, stout.startsWith token encoding) tokens with
  | Some token => Some token
  | None => List.find (λ token, stout.startsWith token "*") tokens
  end.

(** As the specification states it: a [q] that is absent or malformed
    accepts, a [q] that parses accepts iff it is positive. *)
Definition decision_stated (q : qparam) : bool :=
  match q with
  | q_absent | q_repeated | q_unparseable _ => true
  | q_value value => positive value
  end.

(** As the code decides: no [q] entry, or more than one, accepts; a single
    entry whose text is no number refuses. *)
Definition decision (q : qparam) : bool :=
  match q with
  | q_absent | q_repeated => true
  | q_unparseable _ => false
  | q_value value => positive value
  end.

Definition accepts_spec (decide_q : qparam → bool)
    (header : option string) (encoding : string) : bool :=
  match header with
  | None => false
  | Some accepted =>
      match consulted (stout.tokenize (normalized accepted) ",") encoding with
      | None => false
      | Some token => decide_q (q_parameter token)
      end
  end.

End accepts.

Arguments qparam : clear implicits.

End Request.

(** Modelled from the spec: [numify<double>] on the q-values of the spec's
    examples, plain decimal literals [digits] or [digits.digits] with an
    optional sign; the value is the rational the literal denotes.  It
    stands for the conversion on short literals of that form only: it
    reads no exponent, no [inf] and no [nan], and it does not round as a
    double does.  Only the closed examples below run it; the theorems are
    stated for every [numify] and every [positive]. *)
Fixpoint decimal_digits (s : string) (mantissa : N) (scale : nat)
    (dot digit : bool) : option (N * nat) :=
  match s with
  | "" => if digit then Some (mantissa, scale) else None
  | String c s' =>
      if decide (c = "."%char) then
        if dot then None else decimal_digits s' mantissa scale true digit
      else
        match Ascii.is_nat c with
        | Some d =>
            decimal_digits s' (10 * mantissa + N.of_nat d)%N
              (if dot then S scale else scale) dot true
        | None => None
        end
  end.

Definition numify_decimal (s : string) : option Q :=
  let '(negative, digits) :=
    match s with
    | String "-" s' => (true, s')
    | String "+" s' => (false, s')
    | _ => (false, s)
    end in
  '(mantissa, scale) ← decimal_digits digits 0%N 0 false false;
  Some (Qmake (if negative then - Z.of_N mantissa else Z.of_N mantissa)
              (Z.to_pos (10 ^ Z.of_nat scale))).

Definition Q_positive (q : Q) : bool := bool_decide (0 < Qnum q)%Z.

(** A request that carries the given [Accept-Encoding] header, or none. *)
Definition with_accept_encoding (value : option string) : Request.Request :=
  {| Request.method := "GET";
     Request.headers := match value with
                        | Some v => {["Accept-Encoding" := v]}
                        | None => ∅
                        end;
     Request.body := "" |}.

(** ** The streaming pipe *)

Module Pipe.

Inductive State := OPEN | CLOSED.

Global Instance State_eq_dec : EqDecision State.
Proof. solve_decision. Defined.

(** [Pipe::Data], the block shared by all readers and writers.  A
    [Promise<string>] is named by its address in the store of futures. *)
Record Data := {
  readEnd : State;
  writeEnd : State;
  writes : list string;
  reads : list nat;
  readerClosure : Future unit;
}.

(** Calls of [Promise::set] and [Promise::fail], in the order made. *)
Inductive Event :=
  | set_ (promise : nat) (value : string)
  | fail_ (promise : nat) (message : string)
  | set_readerClosure.

Global Instance Event_eq_dec : EqDecision Event.
Proof. solve_decision. Defined.

(** The shared block, the futures handed out so far (a future's address is
    its index) and the promise transitions so far. *)
Record World := {
  data : Data;
  futures : list (Future string);
  trace : list Event;
}.

Definition fresh : World :=
  {| data := {| readEnd := OPEN; writeEnd := OPEN; writes := []; reads := [];
                readerClosure := PENDING |};
     futures := []; trace := [] |}.

Definition with_data (w : World) (d : Data) : World :=
  {| data := d; futures := futures w; trace := trace w |}.

(** A new future in state [f]; the result is its address. *)
Definition new_future (f : Future string) (w : World) : nat * World :=
  (length (futures w),
   {| data := data w; futures := futures w ++ [f]; trace := trace w |}).

(** [Promise::set] and [Promise::fail] complete a pending future and leave
    a completed one as it is. *)
Definition complete (promise : nat) (f : Future string) (w : World)
    : list (Future string) :=
  match futures w !! promise with
  | Some PENDING => <[promise := f]> (futures w)
  | _ => futures w
  end.

Definition Promise_set (promise : nat) (value : string) (w : World) : World :=
  {| data := data w; futures := complete promise (READY value) w;
     trace := trace w ++ [set_ promise value] |}.

Definition Promise_fail (promise : nat) (message : string) (w : World) : World :=
  {| data := data w; futures := complete promise (FAILED message) w;
     trace := trace w ++ [fail_ promise message] |}.

Definition readerClosure_set (w : World) : World :=
  let d := data w in
  {| data := {| readEnd := readEnd d; writeEnd := writeEnd d;
                writes := writes d; reads := reads d;
                readerClosure := match readerClosure d with
                                 | PENDING => READY ()
                                 | f => f
                                 end |};
     futures := futures w;
     trace := trace w ++ [set_readerClosure] |}.

Module Reader.

Definition read (w : World) : nat * World :=
  let d := data w in
  if decide (readEnd d = CLOSED) then
    new_future (FAILED "closed") w
  else
    match writes d with
    | front :: rest =>
        new_future (READY front)
          (with_data w {| readEnd := readEnd d; writeEnd := writeEnd d;
                          writes := rest; reads := reads d;
                          readerClosure := readerClosure d |})
    | [] =>
        if decide (writeEnd d = CLOSED) then
          new_future (READY "") w
        else
          let '(promise, w) := new_future PENDING w in
          (promise,
           with_data w {| readEnd := readEnd d; writeEnd := writeEnd d;
                          writes := writes d; reads := reads d ++ [promise];
                          readerClosure := readerClosure d |})
    end.

Definition close (w : World) : bool * World :=
  let d := data w in
  (* the critical section *)
  let '(closed, notify, reads_, d) :=
    if decide (readEnd d = OPEN) then
      (true, bool_decide (writeEnd d = OPEN), reads d,
       {| readEnd := CLOSED; writeEnd := writeEnd d; writes := []; reads := [];
          readerClosure := readerClosure d |})
    else (false, false, [], d) in
  let w := with_data w d in
  (* the promises, outside of it *)
  if closed then
    let w := foldl (λ w promise, Promise_fail promise "closed" w) w reads_ in
    let w := if notify then readerClosure_set w else w in
    (closed, w)
  else (closed, w).

End Reader.

Module Writer.

Definition write (s : string) (w : World) : bool * World :=
  let d := data w in
  let '(written, read, d) :=
    if decide (writeEnd d = OPEN ∧ readEnd d = OPEN) then
      if decide (s ≠ "") then
        match reads d with
        | [] =>
            (true, None,
             {| readEnd := readEnd d; writeEnd := writeEnd d;
                writes := writes d ++ [s]; reads := reads d;
                readerClosure := readerClosure d |})
        | front :: rest =>
            (true, Some front,
             {| readEnd := readEnd d; writeEnd := writeEnd d;
                writes := writes d; reads := rest;
                readerClosure := readerClosure d |})
        end
      else (true, None, d)
    else (false, None, d) in
  let w := with_data w d in
  let w := match read with
           | Some promise => Promise_set promise s w
           | None => w
           end in
  (written, w).

Definition close (w : World) : bool * World :=
  let d := data w in
  let '(closed, reads_, d) :=
    if decide (writeEnd d = OPEN) then
      (true, reads d,
       {| readEnd := readEnd d; writeEnd := CLOSED; writes := writes d;
          reads := []; readerClosure := readerClosure d |})
    else (false, [], d) in
  let w := with_data w d in
  let w := foldl (λ w promise, Promise_set promise "" w) w reads_ in
  (closed, w).

Definition readerClosed (w : World) : Future unit :=
  readerClosure (data w).

End Writer.

(** Executions: the calls made on the handles of one pipe, one after the
    other, and what each returned. *)
Inductive Call :=
  | read
  | write (s : string)
  | reader_close
  | writer_close.

Inductive Return :=
  | future (address : nat)
  | bool_ (b : bool).

Global Instance Call_eq_dec : EqDecision Call.
Proof. solve_decision. Defined.

Definition step (w : World) (c : Call) : Return * World :=
  match c with
  | read => let '(f, w) := Reader.read w in (future f, w)
  | write s => let '(b, w) := Writer.write s w in (bool_ b, w)
  | reader_close => let '(b, w) := Reader.close w in (bool_ b, w)
  | writer_close => let '(b, w) := Writer.close w in (bool_ b, w)
  end.

Fixpoint run (calls : list Call) (w : World) : list Return * World :=
  match calls with
  | [] => ([], w)
  | c :: calls' =>
      let '(r, w) := step w c in
      let '(rs, w) := run calls' w in
      (r :: rs, w)
  end.

Definition reachable (w : World) : Prop := ∃ calls, (run calls fresh).2 = w.

(** The chunks written and the futures obtained, in call order. *)
Definition written (calls : list Call) : list string :=
  omap (λ c, match c with write s => Some s | _ => None end) calls.

Definition obtained (returns : list Return) : list nat :=
  omap (λ r, match r with future f => Some f | _ => None end) returns.

(** The promises completed with a value, in the order of their completion. *)
Definition fulfilled (events : list Event) : list nat :=
  omap (λ e, match e with set_ promise _ => Some promise | _ => None end) events.

(** Completing a batch of promises with one outcome [f], each call logged
    as [event _]. *)
Definition complete_all (event : nat → Event) (f : Future string)
    (ps : list nat) (w : World) : World :=
  foldl (λ w promise,
           {| data := data w; futures := complete promise f w;
              trace := trace w ++ [event promise] |}) w ps.

(** The number of calls of [readerClosure.set]. *)
Definition closure_sets (events : list Event) : nat :=
  length (filter (λ e, e = set_readerClosure) events).

(** [readerClosure] is pending and was never set, or it is ready, was set
    once, and the read end is closed. *)
Definition closure_inv (w : World) : Prop :=
  match readerClosure (data w) with
  | PENDING => closure_sets (trace w) = 0
  | READY _ => readEnd (data w) = CLOSED ∧ closure_sets (trace w) = 1
  | FAILED _ => False
  end.

(** The call that notifies: a [Reader::close] that finds both ends open. *)
Definition notifies (w : World) (c : Call) : Prop :=
  c = reader_close ∧ readEnd (data w) = OPEN ∧ writeEnd (data w) = OPEN.

Global Instance notifies_dec w c : Decision (notifies w c).
Proof. unfold notifies. apply _. Defined.

(** The calls of the FIFO property: reads, and writes of non-empty chunks. *)
Definition fifo_call (c : Call) : Prop :=
  c = read ∨ ∃ s, c = write s ∧ s ≠ "".

(** With [W] the chunks written so far: both ends are open, the [i]-th
    future holds the [i]-th chunk or is pending when there is none yet,
    the chunks not yet read are buffered, the reads not yet served are
    queued, and the promises were completed in increasing order. *)
Definition fifo_inv (W : list string) (w : World) : Prop :=
  readEnd (data w) = OPEN ∧ writeEnd (data w) = OPEN ∧
  (∀ i, i < length (futures w) →
     futures w !! i = Some (match W !! i with
                            | Some s => READY s
                            | None => PENDING
                            end)) ∧
  writes (data w) = drop (length (futures w)) W ∧
  reads (data w) = seq (length W) (length (futures w) - length W) ∧
  StronglySorted lt (fulfilled (trace w)) ∧
  Forall (λ p, p < length W) (fulfilled (trace w)).

(** The state invariant of the shared block: buffered chunks and pending
    reads exclude each other, the pending reads are pending promises, held
    in the order of their creation, and a closed end has left its queues
    empty. *)
Record wf (w : World) : Prop := {
  wf_exclusive : writes (data w) = [] ∨ reads (data w) = [];
  wf_pending : Forall (λ p, futures w !! p = Some PENDING) (reads (data w));
  wf_sorted : StronglySorted lt (reads (data w));
  wf_read_closed :
    readEnd (data w) = CLOSED → writes (data w) = [] ∧ reads (data w) = [];
  wf_write_closed : writeEnd (data w) = CLOSED → reads (data w) = [];
}.

End Pipe.

(** ** The query string codec *)

Module query.

Section query.
(** [http::encode] and [http::decode], the percent codec of one string
    (process/http.hpp), and the order in which [foreachpair] visits a
    [hashmap].  The order is a parameter of which the statements ask at
    most that it visits every pair once; no statement compares the visits
    of two hashmaps with the same content. *)
Variable http_encode : string → string.
Variable http_decode : string → Try string.
Variable foreachpair : gmap string string → list (string * string).

(** The loop of [decode] over the tokens. *)
Fixpoint decode_tokens (tokens : list string) (result : gmap string string)
    : Try (gmap string string) :=
  match tokens with
  | [] => Ok result
  | token :: tokens' =>
      let pairs := stout.split token "=" (Some 2) in
      match pairs with
      | [] => decode_tokens tokens' result
      | pairs_0 :: _ =>
          match http_decode pairs_0 with
          | Error message => Error message
          | Ok key =>
              match pairs with
              | [_; pairs_1] =>
                  match http_decode pairs_1 with
                  | Error message => Error message
                  | Ok value => decode_tokens tokens' (<[key := value]> result)
                  end
              | [_] => decode_tokens tokens' (<[key := ""]> result)
              | _ => decode_tokens tokens' result
              end
          end
      end
  end.

Definition decode (query : string) : Try (gmap string string) :=
  let tokens := stout.tokenize query ";&" in
  decode_tokens tokens ∅.

Definition encode (query : gmap string string) : string :=
  let output :=
    foldl (λ output '(key, value),
             let output := output +:+ http_encode key in
             let output :=
               if decide (value ≠ "") then output +:+ ("=" +:+ http_encode value)
               else output in
             output +:+ "&")
          "" (foreachpair query) in
  stout.remove output "&" stout.SUFFIX.

End query.

End query.

(** Modelled from the spec: [http::encode] and [http::decode]
    (process/http.hpp, not in this slice), the percent codec of §6:
    reserved, unsafe, control and non-ASCII characters are written [%XX];
    decoding reads [+] as a space and fails on a [%] that is not followed
    by two hexadecimal digits. *)
Definition hex_digit (n : N) : ascii :=
  default "0"%char (chars "0123456789ABCDEF" !! N.to_nat n).

Definition hex_value (c : ascii) : option N :=
  let n := N_of_ascii c in
  if (48 <=? n)%N && (n <=? 57)%N then Some (n - 48)%N
  else if (65 <=? n)%N && (n <=? 70)%N then Some (n - 55)%N
  else if (97 <=? n)%N && (n <=? 102)%N then Some (n - 87)%N
  else None.

Definition escaped (c : ascii) : bool :=
  stout.contains c "$&+,/:;=?@ <>#%{}|\^~[]`" ||
  bool_decide (c = "034"%char) ||
  (N_of_ascii c <? 32)%N || (127 <? N_of_ascii c)%N.

Definition percent_encode_char (c : ascii) : string :=
  if escaped c then
    String "%" (String (hex_digit (N_of_ascii c / 16))
                  (String (hex_digit (N_of_ascii c mod 16)) ""))
  else String c "".

Fixpoint percent_encode (s : string) : string :=
  match s with
  | "" => ""
  | String c s' => percent_encode_char c +:+ percent_encode s'
  end.

Fixpoint percent_decode_from (whole s : string) : Try string :=
  match s with
  | "" => Ok ""
  | String c s' =>
      if decide (c = "%"%char) then
        match s' with
        | String h1 (String h2 rest) =>
            match hex_value h1, hex_value h2 with
            | Some a, Some b =>
                match percent_decode_from whole rest with
                | Ok out => Ok (String (ascii_of_N (16 * a + b)) out)
                | Error message => Error message
                end
            | _, _ =>
                Error ("Malformed % escape in '" +:+ whole +:+ "': '" +:+
                       String.substring 0 3 s +:+ "'")
            end
        | _ =>
            Error ("Malformed % escape in '" +:+ whole +:+ "': '" +:+
                   String.substring 0 3 s +:+ "'")
        end
      else
        match percent_decode_from whole s' with
        | Ok out => Ok (String (if decide (c = "+"%char) then " "%char else c) out)
        | Error message => Error message
        end
  end.

Definition percent_decode (s : string) : Try string := percent_decode_from s s.

(** ** Response framing and request rendering *)

Module URL.
Record URL := {
  scheme : string;
  ip : option N;
  domain : option string;
  port : N;
  path : string;
  query : gmap string string;
  fragment : option string;
}.
End URL.

Module Address.
Record Address := {
  ip : N;
  port : N;
}.
End Address.

(** Modelled from the spec: the printing of an [Address]
    (process/address.hpp, not in this slice): the four bytes of the IP in
    decimal, the most significant first, with dots between them, then a
    colon and the port. *)
Definition stringify_address (address : Address.Address) : string :=
  let ip := Address.ip address in
  pretty ((ip / 16777216) mod 256)%N +:+ "." +:+
  pretty ((ip / 65536) mod 256)%N +:+ "." +:+
  pretty ((ip / 256) mod 256)%N +:+ "." +:+
  pretty (ip mod 256)%N +:+ ":" +:+ pretty (Address.port address).

Module internal.

Section internal.
(** The collaborators: the response parser ([ResponseDecoder::decode]
    together with [failed()]), the socket's [send] and [recv], the printing
    of an address, and the order in which [foreachpair] visits a
    [hashmap]. *)
Context {Response : Type}.
Variable decoder : string → bool * list Response.
Variable send : string → Future nat.
Variable recv : option Z → Future string.
Variable stringify : Address.Address → string.
Variable foreachpair : gmap string string → list (string * string).

(** The answer, and what went to the error log. *)
Definition decode (buffer : string) : Future Response * list string :=
  let '(failed, responses) := decoder buffer in
  if failed || bool_decide (length responses = 0) then
    (FAILED ("Failed to decode HTTP response:" +:+ LF +:+ buffer +:+ LF), [])
  else
    let log :=
      if bool_decide (1 < length responses)
      then ["Received more than 1 HTTP Response"] else [] in
    match responses with
    | response :: _ => (READY response, log)
    | [] => (PENDING, log)
    end.

(** The header block of [_request]: the caller's headers with [Host],
    [Connection], [Content-Type] and [Content-Length] put on top. *)
Definition _request_headers (address : Address.Address)
    (_headers : option (gmap string string))
    (body contentType : option string) : gmap string string :=
  let headers : gmap string string := ∅ in
  let headers := match _headers with Some given => given | None => headers end in
  let headers := <["Host" := stringify address]> headers in
  let headers := <["Connection" := "close"]> headers in
  let headers :=
    match contentType with
    | Some type => <["Content-Type" := type]> headers
    | None => headers
    end in
  let headers :=
    match body with
    | Some content => <["Content-Length" := pretty (String.length content)]> headers
    | None => headers
    end in
  headers.

(** What [_request] has put into [out] when it calls [send]. *)
Definition _request_out (address : Address.Address) (url : URL.URL)
    (method : string) (_headers : option (gmap string string))
    (body contentType : option string) : string :=
  let out := "" in
  let out := out +:+ method +:+ " /" +:+
             stout.remove (URL.path url) "/" stout.PREFIX in
  let out :=
    if decide (URL.query url ≠ ∅) then
      let query :=
        foldl (λ query '(key, value), query ++ [key +:+ "=" +:+ value])
              [] (foreachpair (URL.query url)) in
      out +:+ "?" +:+ stout.join "&" query
    else out in
  let out :=
    match URL.fragment url with
    | Some fragment => out +:+ "#" +:+ fragment
    | None => out
    end in
  let out := out +:+ " HTTP/1.1" +:+ CRLF in
  let headers := _request_headers address _headers body contentType in
  let out :=
    foldl (λ out '(key, value), out +:+ key +:+ ": " +:+ value +:+ CRLF)
          out (foreachpair headers) in
  let out := out +:+ CRLF in
  let out :=
    match body with
    | Some content => out +:+ content
    | None => out
    end in
  out.

Definition _request (address : Address.Address) (url : URL.URL)
    (method : string) (_headers : option (gmap string string))
    (body contentType : option string) : Future Response :=
  then_ (send (_request_out address url method _headers body contentType))
    (λ _, then_ (recv (Some (-1)%Z)) (λ buffer, (decode buffer).1)).

End internal.

End internal.

(** ** The request pipeline and the verbs *)

Module UPID.
Record UPID := {
  id : string;
  address : Address.Address;
}.
End UPID.

(** Modelled from the spec: the constructor [URL(scheme, ip, port, path)]
    (process/http.hpp, not in this slice); a URL with a literal address,
    no domain, an empty query and no fragment. *)
Definition URL_of_ip (scheme : string) (ip port : N) (path : string) : URL.URL :=
  {| URL.scheme := scheme; URL.ip := Some ip; URL.domain := None;
     URL.port := port; URL.path := path; URL.query := ∅;
     URL.fragment := None |}.

(** The assignments [url.path = ...] and [url.query = ...]. *)
Definition URL_set_path (url : URL.URL) (path : string) : URL.URL :=
  {| URL.scheme := URL.scheme url; URL.ip := URL.ip url;
     URL.domain := URL.domain url; URL.port := URL.port url;
     URL.path := path; URL.query := URL.query url;
     URL.fragment := URL.fragment url |}.

Definition URL_set_query (url : URL.URL) (query : gmap string string) : URL.URL :=
  {| URL.scheme := URL.scheme url; URL.ip := URL.ip url;
     URL.domain := URL.domain url; URL.port := URL.port url;
     URL.path := URL.path url; URL.query := query;
     URL.fragment := URL.fragment url |}.

(** Modelled from the spec: [strings::join(separator, s1, s2)] (stout, not
    in this slice); the two strings with the separator between them. *)
Definition join2 (separator s1 s2 : string) : string :=
  s1 +:+ separator +:+ s2.

Module http.

Section http.
(** The collaborators: the response parser, [Socket::create], the
    resolver [net::getIP], the socket's [connect], [send] and [recv], the
    printing of an address, the order in which [foreachpair] visits a
    [hashmap], and the percent decoding of one string. *)
Context {Response Socket : Type}.
Variable decoder : string → bool * list Response.
Variable create : Try Socket.
Variable getIP : string → Try N.
Variable connect : Socket → Address.Address → Future unit.
Variable send : Socket → string → Future nat.
Variable recv : Socket → option Z → Future string.
Variable stringify : Address.Address → string.
Variable foreachpair : gmap string string → list (string * string).
Variable http_decode : string → Try string.

(** [internal::request] *)
Definition request (url : URL.URL) (method : string)
    (headers : option (gmap string string))
    (body contentType : option string) : Future Response :=
  if decide (URL.scheme url ≠ "http") then FAILED "Unsupported URL scheme"
  else
    match create with
    | Error message => FAILED ("Failed to create socket: " +:+ message)
    | Ok socket =>
        let connected (ip : N) : Future Response :=
          let address := {| Address.ip := ip; Address.port := URL.port url |} in
          then_ (connect socket address)
            (λ _, internal._request decoder (send socket) (recv socket)
                    stringify foreachpair address url method headers body
                    contentType) in
        match URL.ip url with
        | Some ip => connected ip
        | None =>
            match URL.domain url with
            | None => FAILED "Missing URL domain or IP"
            | Some domain =>
                match getIP domain with
                | Error message =>
                    FAILED ("Failed to determine IP of domain '" +:+ domain +:+
                            "': " +:+ message)
                | Ok ip => connected ip
                end
            end
        end
    end.

Definition get (url : URL.URL) (headers : option (gmap string string))
    : Future Response :=
  request url "GET" headers None None.

Definition put (url : URL.URL) (headers : option (gmap string string))
    (body contentType : option string) : Future Response :=
  if bool_decide (body = None) && bool_decide (contentType ≠ None) then
    FAILED "Attempted to do a PUT with a Content-Type but no body"
  else request url "PUT" headers body contentType.

Definition post (url : URL.URL) (headers : option (gmap string string))
    (body contentType : option string) : Future Response :=
  if bool_decide (body = None) && bool_decide (contentType ≠ None) then
    FAILED "Attempted to do a POST with a Content-Type but no body"
  else request url "POST" headers body contentType.

(** The URL that [get] and [post] make of a process identifier and an
    optional path. *)
Definition upid_url (upid : UPID.UPID) (path : option string) : URL.URL :=
  let url := URL_of_ip "http" (Address.ip (UPID.address upid))
               (Address.port (UPID.address upid)) (UPID.id upid) in
  match path with
  | Some path => URL_set_path url (join2 "/" (URL.path url) path)
  | None => url
  end.

(** [get(upid, path, query, headers)] *)
Definition get_upid (upid : UPID.UPID) (path query : option string)
    (headers : option (gmap string string)) : Future Response :=
  let url := upid_url upid path in
  match query with
  | Some query =>
      match query.decode http_decode (stout.remove query "?" stout.PREFIX) with
      | Error message =>
          FAILED ("Failed to decode HTTP query string: " +:+ message)
      | Ok decoded => get (URL_set_query url decoded) headers
      end
  | None => get url headers
  end.

(** [post(upid, path, headers, body, contentType)] *)
Definition post_upid (upid : UPID.UPID) (path : option string)
    (headers : option (gmap string string))
    (body contentType : option string) : Future Response :=
  post (upid_url upid path) headers body contentType.

End http.

End http.

(** ** The status table *)

(** The assignments of [initialize], in their order. *)
Definition status_lines : list (N * string) :=
  [(100, "100 Continue"); (101, "101 Switching Protocols"); (200, "200 OK");
   (201, "201 Created"); (202, "202 Accepted");
   (203, "203 Non-Authoritative Information"); (204, "204 No Content");
   (205, "205 Reset Content"); (206, "206 Partial Content");
   (300, "300 Multiple Choices"); (301, "301 Moved Permanently");
   (302, "302 Found"); (303, "303 See Other"); (304, "304 Not Modified");
   (305, "305 Use Proxy"); (307, "307 Temporary Redirect");
   (400, "400 Bad Request"); (401, "401 Unauthorized");
   (402, "402 Payment Required"); (403, "403 Forbidden");
   (404, "404 Not Found"); (405, "405 Method Not Allowed");
   (406, "406 Not Acceptable"); (407, "407 Proxy Authentication Required");
   (408, "408 Request Time-out"); (409, "409 Conflict"); (410, "410 Gone");
   (411, "411 Length Required"); (412, "412 Precondition Failed");
   (413, "413 Request Entity Too Large"); (414, "414 Request-URI Too Large");
   (415, "415 Unsupported Media Type");
   (416, "416 Requested range not satisfiable");
   (417, "417 Expectation Failed"); (500, "500 Internal Server Error");
   (501, "501 Not Implemented"); (502, "502 Bad Gateway");
   (503, "503 Service Unavailable"); (504, "504 Gateway Time-out");
   (505, "505 HTTP Version not supported")]%N.

(** [initialize] on the table [statuses]. *)
Definition initialize (statuses : gmap N string) : gmap N string :=
  foldl (λ statuses '(code, line), <[code := line]> statuses)
        statuses status_lines.

(** ** Vocabulary of the statements *)

(** [free_of delims s]: no character of [s] is in [delims]. *)
Definition free_of (delims s : string) : bool :=
  forallb (λ c, negb (stout.contains c delims)) (chars s).

(** A pair of the query as the request line shows it, and as
    [query::encode] writes it. *)
Definition raw_pair (pair : string * string) : string :=
  pair.1 +:+ "=" +:+ pair.2.

Definition encoded_pair (http_encode : string → string)
    (pair : string * string) : string :=
  http_encode pair.1 +:+
  (if decide (pair.2 ≠ "") then "=" +:+ http_encode pair.2 else "").

(** What the query codec needs of a key or a value: it is not empty, its
    percent-encoding has none of the delimiters [;], [&] and [=], and the
    percent codec gives it back. *)
Definition codable (http_encode : string → string)
    (http_decode : string → Try string) (s : string) : Prop :=
  s ≠ "" ∧ free_of ";&=" (http_encode s) = true ∧
  http_decode (http_encode s) = Ok s.

(** The part of the request line between the method and the protocol
    version, for a query visited in the order [pairs]. *)
Definition request_target (url : URL.URL) (pairs : list (string * string))
    : string :=
  "/" +:+ stout.remove (URL.path url) "/" stout.PREFIX +:+
  (if decide (URL.query url ≠ ∅)
   then "?" +:+ stout.join "&" (raw_pair <$> pairs) else "") +:+
  (match URL.fragment url with
   | Some fragment => "#" +:+ fragment
   | None => ""
   end).

(** One header line, and a block of them. *)
Definition header_line (header : string * string) : string :=
  header.1 +:+ ": " +:+ header.2 +:+ CRLF.

Definition header_block (emitted : list (string * string)) : string :=
  foldr (λ header block, header_line header +:+ block) "" emitted.

(** The value that §4.3 gives to the header [key]. *)
Definition expected_header (host : string) (_headers : option (gmap string string))
    (body contentType : option string) (key : string) : option string :=
  let given := default ∅ _headers !! key in
  if decide (key = "Content-Length") then
    match body with
    | Some content => Some (pretty (String.length content))
    | None => given
    end
  else if decide (key = "Content-Type") then
    match contentType with
    | Some type => Some type
    | None => given
    end
  else if decide (key = "Connection") then Some "close"
  else if decide (key = "Host") then Some host
  else given.

(** ** Further vocabulary: the futures of a pipe *)

(** What the futures handed out say about the pipe: a pending future is
    the promise of a queued read; a failed one failed with [closed], and
    then the read end is closed; one that holds the empty chunk was
    completed at the end of the stream; no empty chunk is buffered. *)
Record accounted (w : Pipe.World) : Prop := {
  accounted_pending :
    ∀ i, Pipe.futures w !! i = Some PENDING → i ∈ Pipe.reads (Pipe.data w);
  accounted_failed :
    ∀ i message, Pipe.futures w !! i = Some (FAILED message) →
      message = "closed" ∧ Pipe.readEnd (Pipe.data w) = Pipe.CLOSED;
  accounted_eof :
    ∀ i, Pipe.futures w !! i = Some (READY "") →
      Pipe.writeEnd (Pipe.data w) = Pipe.CLOSED;
  accounted_buffer : Forall (λ s, s ≠ "") (Pipe.writes (Pipe.data w));
}.

(** The calls that are not the write of an empty chunk. *)
Definition surfaced (c : Pipe.Call) : bool :=
  match c with
  | Pipe.write "" => false
  | _ => true
  end.

(** ** Further vocabulary: headers and queries *)

(** The characters that [accepts] strips from the header: space, tab and
    newline. *)
Definition blank (c : ascii) : bool :=
  bool_decide (c = " "%char) || bool_decide (c = "009"%char) ||
  bool_decide (c = "010"%char).

(** A pair that [query::encode] writes and [query::decode] reads back: the
    key is codable and its encoding is not empty, the value is empty or
    codable. *)
Definition codable_pair (http_encode : string → string)
    (http_decode : string → Try string) (pair : string * string) : Prop :=
  codable http_encode http_decode pair.1 ∧ http_encode pair.1 ≠ "" ∧
  (pair.2 = "" ∨ codable http_encode http_decode pair.2).

(** ** Further vocabulary: the pipeline *)

(** The address that [request] connects to when it gets that far: the
    literal address of the URL, or the one that the resolver gives for its
    domain when there is no literal address. *)
Definition resolved (getIP : string → Try N) (url : URL.URL) (ip : N) : Prop :=
  URL.ip url = Some ip ∨
  URL.ip url = None ∧
  ∃ domain, URL.domain url = Some domain ∧ getIP domain = Ok ip.

(** How the part of the pipeline after the address is known fails with
    [message] on the socket, the address and the rendered text of this
    request: connecting fails with it; or connecting succeeds and sending
    the text fails with it; or both succeed and receiving fails with it;
    or all three succeed and the parser fails on the buffer received or
    finds no response in it, the message being the one of
    [internal::decode] with that buffer in it. *)
Definition fails_connected {Response Socket : Type}
    (decoder : string → bool * list Response)
    (connect : Socket → Address.Address → Future unit)
    (send : Socket → string → Future nat)
    (recv : Socket → option Z → Future string)
    (socket : Socket) (address : Address.Address) (text message : string)
    : Prop :=
  connect socket address = FAILED message ∨
  connect socket address = READY () ∧
  (send socket text = FAILED message ∨
   ∃ n, send socket text = READY n ∧
     (recv socket (Some (-1)%Z) = FAILED message ∨
      ∃ buffer, recv socket (Some (-1)%Z) = READY buffer ∧
        ((decoder buffer).1 = true ∨ (decoder buffer).2 = []) ∧
        message = "Failed to decode HTTP response:" +:+ LF +:+ buffer +:+ LF)).

(** A network for the examples: one socket, a resolver that knows every
    domain, a peer that answers anything with one response, and a parser
    that takes the whole buffer as one response. *)
Definition example_decoder (buffer : string) : bool * list string :=
  (false, [buffer]).
Definition example_create : Try unit := Ok ().
Definition example_getIP (domain : string) : Try N := Ok 167772161%N.
Definition example_connect (socket : unit) (address : Address.Address)
    : Future unit := READY ().
Definition example_refuse (socket : unit) (address : Address.Address)
    : Future unit := FAILED "Connection refused".
Definition example_send (socket : unit) (text : string) : Future nat :=
  READY (String.length text).
Definition example_recv (socket : unit) (size : option Z) : Future string :=
  READY "HTTP/1.1 200 OK".
Definition example_stringify (address : Address.Address) : string :=
  stringify_address address.
Definition example_url : URL.URL :=
  {| URL.scheme := "http"; URL.ip := None; URL.domain := Some "host";
     URL.port := 80%N; URL.path := "/a/b"; URL.query := {["x" := "1"]};
     URL.fragment := None |}.
Definition example_upid : UPID.UPID :=
  {| UPID.id := "master";
     UPID.address := {| Address.ip := 167772161%N; Address.port := 5050%N |} |}.

(** * Properties *)

(** ** Strings *)

Lemma string_app_nil_r (s : string) : s +:+ "" = s.
Proof. induction s as [|c s IH]; [done|]. unfold String.app; simpl. by f_equal. Qed.

Lemma string_app_assoc (s1 s2 s3 : string) :
  (s1 +:+ s2) +:+ s3 = s1 +:+ (s2 +:+ s3).
Proof.
  induction s1 as [|c s1 IH]; [done|].
  unfold String.app in *; simpl. by f_equal.
Qed.

Lemma string_app_cons (c : ascii) (s1 s2 : string) :
  String c s1 +:+ s2 = String c (s1 +:+ s2).
Proof. done. Qed.

Lemma string_app_nil_l (s : string) : "" +:+ s = s.
Proof. done. Qed.

Lemma string_app_length (s1 s2 : string) :
  String.length (s1 +:+ s2) = String.length s1 + String.length s2.
Proof.
  induction s1 as [|c s1 IH]; [done|].
  rewrite string_app_cons. simpl. by rewrite IH.
Qed.

Lemma chars_app (s1 s2 : string) : chars (s1 +:+ s2) = chars s1 ++ chars s2.
Proof.
  induction s1 as [|c s1 IH]; [done|].
  rewrite string_app_cons. unfold chars in *; simpl. by rewrite IH.
Qed.

(** ** Stripping a character *)

Lemma substring_all (s : string) : String.substring 0 (String.length s) s = s.
Proof. induction s as [|c s IH]; [done|]. simpl. by rewrite IH. Qed.

Lemma erase_first_char (c : ascii) (s : string) :
  stout.erase_first (String c "") s =
    match s with
    | "" => None
    | String x s' =>
        if decide (x = c) then Some s'
        else String x <$> stout.erase_first (String c "") s'
    end.
Proof.
  destruct s as [|x s']; [done|]. simpl.
  destruct (ascii_dec c x) as [->|Hne].
  - rewrite decide_True by done.
    destruct s'; simpl; by rewrite ?Nat.sub_0_r, ?substring_all.
  - by rewrite decide_False by congruence.
Qed.

Lemma erase_first_char_spec (c : ascii) (s : string) :
  match stout.erase_first (String c "") s with
  | None => filter (λ x, x ≠ c) (chars s) = chars s
  | Some s' =>
      S (String.length s') = String.length s ∧
      filter (λ x, x ≠ c) (chars s') = filter (λ x, x ≠ c) (chars s)
  end.
Proof.
  induction s as [|x s IH]; rewrite erase_first_char; [done|].
  unfold chars in *; simpl. destruct (decide (x = c)) as [->|Hne].
  - split; [done|]. by rewrite filter_cons_False by (by intros ?).
  - rewrite filter_cons_True by done.
    destruct (stout.erase_first (String c "") s) as [s'|]; simpl.
    + destruct IH as [Hlen Hfil]. split; [by rewrite Hlen|].
      rewrite filter_cons_True by done. by rewrite Hfil.
    + by rewrite IH.
Qed.

Lemma remove_any_char (c : ascii) (fuel : nat) (s : string) :
  String.length s ≤ fuel →
  chars (stout.remove_any fuel (String c "") s) = filter (λ x, x ≠ c) (chars s).
Proof.
  revert s. induction fuel as [|fuel IH]; intros s Hlen.
  - destruct s; [done|simpl in Hlen; lia].
  - simpl. pose proof (erase_first_char_spec c s) as Hspec.
    destruct (stout.erase_first (String c "") s) as [s'|].
    + destruct Hspec as [Hlen' Hfil]. rewrite IH by lia. done.
    + by rewrite Hspec.
Qed.

(** Stripping leaves the other characters in place, in order. *)
Lemma remove_char_chars (c : ascii) (s : string) :
  chars (stout.remove s (String c "") stout.ANY) = filter (λ x, x ≠ c) (chars s).
Proof. by apply remove_any_char. Qed.

Lemma normalized_chars (accepted : string) :
  chars (Request.normalized accepted) =
    filter (λ x, x ≠ "010"%char)
      (filter (λ x, x ≠ "009"%char)
         (filter (λ x, x ≠ " "%char) (chars accepted))).
Proof.
  unfold Request.normalized, TAB, LF. by rewrite !remove_char_chars.
Qed.

(** ** Content negotiation *)

Lemma foreach_find {A R} (P : A → bool) (f : A → R) (xs : list A) :
  foreach xs (λ x, if P x then Some (f x) else None) = f <$> List.find P xs.
Proof.
  induction xs as [|x xs IH]; [done|]. simpl. by destruct (P x).
Qed.

Section accepts_properties.
Context {double : Type}.
Variable numify : string → option double.
Variable positive : double → bool.

(** What [strings::pairs] records under the key [q]: nothing when there
    is no [q] entry, else the texts of the entries in order. *)
Lemma pairs_lookup_q (token : string) :
  stout.pairs token ";" "=" !! "q" =
    match Request.q_entries token with
    | [] => None
    | texts => Some texts
    end.
Proof.
  unfold stout.pairs, Request.q_entries.
  set (f := λ (result : gmap string (list string)) (part : string),
              match stout.tokenize part "=" with
              | [k; v] => <[k := default [] (result !! k) ++ [v]]> result
              | _ => result
              end).
  set (g := λ part : string,
              match stout.tokenize part "=" with
              | [name; text] => if decide (name = "q") then Some text else None
              | _ => None
              end).
  assert (Hfold : ∀ parts (result : gmap string (list string)),
    result !! "q" ≠ Some [] →
    foldl f result parts !! "q" =
      match default [] (result !! "q") ++ omap g parts with
      | [] => None
      | texts => Some texts
      end).
  { induction parts as [|part parts IH]; intros result Hresult.
    - simpl. rewrite app_nil_r.
      by destruct (result !! "q") as [[|text texts]|].
    - cbn [foldl omap list_omap]. unfold f at 2, g at 1.
      destruct (stout.tokenize part "=") as [|k [|v [|? ?]]]; try by apply IH.
      destruct (decide (k = "q")) as [->|Hk].
      + rewrite IH.
        * rewrite lookup_insert_eq. simpl. by rewrite <- app_assoc.
        * rewrite lookup_insert_eq. intros [= Hnil].
          by apply app_nil in Hnil as [_ ?].
      + rewrite IH by (by rewrite lookup_insert_ne).
        by rewrite lookup_insert_ne. }
  rewrite Hfold by done. by rewrite lookup_empty.
Qed.

(** What the loop body answers for a token that starts with the
    candidate. *)
Lemma accepts_body_decision (token : string) :
  match stout.pairs token ";" "=" !! "q" with
  | None => Some true
  | Some qs =>
      if bool_decide (length qs ≠ 1) then Some true
      else match numify (default "" (qs !! 0)) with
           | Some value => Some (positive value)
           | None => Some false
           end
  end = Some (Request.decision positive (Request.q_parameter numify token)).
Proof.
  rewrite pairs_lookup_q. unfold Request.q_parameter.
  destruct (Request.q_entries token) as [|text [|text' texts]]; simpl; try done.
  by destruct (numify text).
Qed.

(** C1, as amended: without the header the answer is false; with it, the
    stripped value is cut at commas, the token consulted is the first one
    that starts with the encoding name or, when no token does, the first
    one that starts with [*], and that token's [q] entries alone decide,
    an entry being a part between [;] whose non-empty pieces between [=]
    are exactly two, the first being [q]: no entry, or more than one,
    accepts; a single entry whose text is a number accepts iff the number
    is positive; a single entry whose text is no number refuses.  Without
    a token to consult the answer is false. *)
Theorem accepts_decides (request : Request.Request) (encoding : string) :
  Request.accepts numify positive request encoding =
    Request.accepts_spec numify (Request.decision positive)
      (Request.headers request !! "Accept-Encoding") encoding.
Proof.
  unfold Request.accepts, Request.accepts_spec, Request.consulted.
  destruct (Request.headers request !! "Accept-Encoding") as [accepted|]; [|done].
  fold (Request.normalized accepted).
  set (tokens := stout.tokenize (Request.normalized accepted) ",").
  set (result token :=
         Request.decision positive (Request.q_parameter numify token)).
  assert (Hloop : ∀ candidate,
    foreach tokens (λ _encoding,
      if stout.startsWith _encoding candidate then
        match stout.pairs _encoding ";" "=" !! "q" with
        | None => Some true
        | Some qs =>
            if bool_decide (length qs ≠ 1) then Some true
            else match numify (default "" (qs !! 0)) with
                 | Some value => Some (positive value)
                 | None => Some false
                 end
        end
      else None)
    = result <$> List.find (λ token, stout.startsWith token candidate) tokens).
  { intros candidate. rewrite <- foreach_find.
    induction tokens as [|token tokens' IH]; [done|]. simpl.
    rewrite accepts_body_decision. by rewrite IH. }
  simpl. rewrite !Hloop.
  destruct (List.find _ tokens) as [token|]; [done|]. simpl.
  by destruct (List.find _ tokens) as [token|].
Qed.

End accepts_properties.

(** The examples of the specification. *)
Example accepts_examples :
  let accepts header :=
    Request.accepts numify_decimal Q_positive (with_accept_encoding header) in
  accepts (Some "gzip;q=0") "gzip" = false ∧
  accepts (Some "gzip;q=0.5") "gzip" = true ∧
  accepts (Some "") "gzip" = false ∧
  accepts (Some "*") "anything" = true ∧
  accepts None "gzip" = false.
Proof. vm_compute. done. Qed.

(** What counts as a [q] entry: [q=], [q] and [q=0=0] are none, so the
    token accepts; in [q=0;q=] only the first part is one, so the token
    refuses; two entries accept. *)
Example accepts_q_entries :
  let accepts header :=
    Request.accepts numify_decimal Q_positive (with_accept_encoding header) in
  Request.q_entries "gzip;q=" = [] ∧ accepts (Some "gzip;q=") "gzip" = true ∧
  Request.q_entries "gzip;q" = [] ∧ accepts (Some "gzip;q") "gzip" = true ∧
  Request.q_entries "gzip;q=0=0" = [] ∧
  accepts (Some "gzip;q=0=0") "gzip" = true ∧
  Request.q_entries "gzip;q=0;q=" = ["0"] ∧
  accepts (Some "gzip;q=0;q=") "gzip" = false ∧
  Request.q_entries "gzip;q=0;q=0" = ["0"; "0"] ∧
  accepts (Some "gzip;q=0;q=0") "gzip" = true.
Proof. vm_compute. by repeat split. Qed.

(** C1 as stated fails: the token [gzip;q=abc] starts with [gzip] and has
    one [q] entry, whose text is no number; read as malformed it should
    accept, and the code refuses. *)
Lemma accepts_unparseable_q_refused :
  let header := Some "gzip;q=abc" in
  Request.q_parameter numify_decimal "gzip;q=abc" = Request.q_unparseable "abc" ∧
  Request.accepts_spec numify_decimal (Request.decision_stated Q_positive)
    header "gzip" = true ∧
  Request.accepts numify_decimal Q_positive (with_accept_encoding header) "gzip"
    = false ∧
  Request.accepts numify_decimal Q_positive (with_accept_encoding header) "gzip"
    ≠ Request.accepts_spec numify_decimal (Request.decision_stated Q_positive)
        header "gzip".
Proof. vm_compute. by repeat split. Qed.

(** ** The pipe: promises *)

Section pipe_promises.
Import Pipe.

Lemma complete_all_data event f ps w : data (complete_all event f ps w) = data w.
Proof. revert w. induction ps as [|p ps IH]; intros w; [done|]. simpl. by rewrite IH. Qed.

Lemma complete_all_trace event f ps w :
  trace (complete_all event f ps w) = trace w ++ (event <$> ps).
Proof.
  revert w. induction ps as [|p ps IH]; intros w; simpl.
  - by rewrite app_nil_r.
  - rewrite IH. simpl. by rewrite <- app_assoc.
Qed.

Lemma complete_lookup p f w i :
  complete p f w !! i =
    match futures w !! i with
    | Some PENDING => if decide (i = p) then Some f else Some PENDING
    | other => other
    end.
Proof.
  unfold complete. destruct (decide (i = p)) as [->|Hne].
  - destruct (futures w !! p) as [[|?|?]|] eqn:Hp; rewrite ?Hp; try done.
    apply list_lookup_insert_eq. by eapply lookup_lt_Some.
  - destruct (futures w !! p) as [[|?|?]|] eqn:Hp; try by destruct (futures w !! i) as [[|?|?]|].
    rewrite list_lookup_insert_ne by done. by destruct (futures w !! i) as [[|?|?]|].
Qed.

Lemma complete_all_lookup event f ps w i :
  f ≠ PENDING →
  futures (complete_all event f ps w) !! i =
    match futures w !! i with
    | Some PENDING => if decide (i ∈ ps) then Some f else Some PENDING
    | other => other
    end.
Proof.
  intros Hf. revert w. induction ps as [|p ps IH]; intros w; simpl.
  - by destruct (futures w !! i) as [[|?|?]|].
  - rewrite IH. simpl. rewrite complete_lookup.
    destruct (futures w !! i) as [[|?|?]|]; try done.
    destruct (decide (i = p)) as [->|Hne].
    + rewrite (decide_True (P := p ∈ p :: ps)) by (by left). by destruct f.
    + destruct (decide (i ∈ ps)).
      * by rewrite (decide_True (P := i ∈ p :: ps)) by (by right).
      * by rewrite (decide_False (P := i ∈ p :: ps)) by (by apply not_elem_of_cons).
Qed.

Lemma complete_all_set v ps w :
  foldl (λ w promise, Promise_set promise v w) w ps
  = complete_all (λ p, set_ p v) (READY v) ps w.
Proof. done. Qed.

Lemma complete_all_fail m ps w :
  foldl (λ w promise, Promise_fail promise m w) w ps
  = complete_all (λ p, fail_ p m) (FAILED m) ps w.
Proof. done. Qed.

End pipe_promises.

(** ** The pipe: the invariant *)

Section pipe_invariant.
Import Pipe.

Lemma pending_alloc (fs : list (Future string)) (f : Future string) (rs : list nat) :
  Forall (λ p, fs !! p = Some PENDING) rs →
  Forall (λ p, (fs ++ [f]) !! p = Some PENDING) rs.
Proof.
  intros Hall. eapply Forall_impl; [done|].
  intros p Hp. by apply lookup_app_l_Some.
Qed.

Lemma pending_bound (fs : list (Future string)) (rs : list nat) :
  Forall (λ p, fs !! p = Some PENDING) rs → Forall (λ p, p < length fs) rs.
Proof.
  intros Hall. eapply Forall_impl; [done|].
  intros p Hp. simpl in Hp. by eapply lookup_lt_Some.
Qed.

Lemma sorted_snoc (rs : list nat) (n : nat) :
  StronglySorted lt rs → Forall (λ p, p < n) rs → StronglySorted lt (rs ++ [n]).
Proof.
  induction 1 as [|p rs Hs IH Hall]; intros Hn; simpl.
  - repeat constructor.
  - apply Forall_cons in Hn as [Hp Hn]. constructor; [by apply IH|].
    apply Forall_app. split; [done|]. by repeat constructor.
Qed.

Lemma wf_fresh : wf fresh.
Proof. split; simpl; auto using Forall_nil; constructor. Qed.

Lemma wf_read (w : World) : wf w → wf (Reader.read w).2.
Proof.
  destruct w as [[re we ws rs rc] fs tr]. intros [Hex Hpen Hsort Hrc Hwc].
  unfold Reader.read, new_future, with_data; simpl in *.
  destruct (decide (re = CLOSED)) as [Hre|Hre]; simpl.
  { split; simpl; auto using pending_alloc. }
  destruct ws as [|front rest]; simpl.
  - destruct (decide (we = CLOSED)) as [Hwe|Hwe]; simpl.
    { split; simpl; auto using pending_alloc. }
    split; simpl; try done; auto.
    + apply Forall_app. split; [by apply pending_alloc|].
      repeat constructor. by rewrite lookup_app_r, Nat.sub_diag.
    + apply sorted_snoc; [done|]. by eapply pending_bound.
  - destruct Hex as [?| ->]; [done|].
    split; simpl; auto using Forall_nil; try constructor; intros; congruence.
Qed.

Lemma wf_reader_close (w : World) : wf w → wf (Reader.close w).2.
Proof.
  destruct w as [[re we ws rs rc] fs tr]. intros [Hex Hpen Hsort Hrc Hwc].
  unfold Reader.close, with_data; simpl in *.
  destruct (decide (re = OPEN)) as [Hre|Hre]; simpl.
  - rewrite complete_all_fail.
    assert (Hdata : ∀ w', data w' = {| readEnd := CLOSED; writeEnd := we;
                writes := []; reads := []; readerClosure := rc |} → wf w').
    { intros w' Hd. split; rewrite Hd; simpl; auto using Forall_nil. constructor. }
    destruct (bool_decide (we = OPEN)).
    + split; simpl; rewrite complete_all_data; simpl; auto using Forall_nil. constructor.
    + apply Hdata. by rewrite complete_all_data.
  - by split.
Qed.

Lemma wf_write (s : string) (w : World) : wf w → wf (Writer.write s w).2.
Proof.
  destruct w as [[re we ws rs rc] fs tr]. intros [Hex Hpen Hsort Hrc Hwc].
  unfold Writer.write, with_data; simpl in *.
  destruct (decide (we = OPEN ∧ re = OPEN)) as [[-> ->]|Hopen]; simpl; [|by split].
  destruct (decide (s ≠ "")) as [Hs|Hs]; simpl; [|by split].
  destruct rs as [|front rest]; simpl.
  - split; simpl; auto; done.
  - destruct Hex as [->|?]; [|done].
    apply Forall_cons in Hpen as [Hfront Hrest].
    apply StronglySorted_inv in Hsort as [Hsort Hlt].
    split; simpl; auto; try done.
    unfold complete; simpl. rewrite Hfront.
    rewrite Forall_forall in Hrest, Hlt. apply Forall_forall. intros p Hin.
    specialize (Hlt p Hin). rewrite list_lookup_insert_ne by lia. auto.
Qed.

Lemma wf_writer_close (w : World) : wf w → wf (Writer.close w).2.
Proof.
  destruct w as [[re we ws rs rc] fs tr]. intros [Hex Hpen Hsort Hrc Hwc].
  unfold Writer.close, with_data; simpl in *.
  destruct (decide (we = OPEN)) as [Hwe|Hwe]; simpl; [|by split].
  rewrite complete_all_set.
  split; rewrite complete_all_data; simpl; auto using Forall_nil; try constructor.
  all: intuition congruence.
Qed.

Lemma wf_step (c : Call) (w : World) : wf w → wf (step w c).2.
Proof.
  intros Hwf. destruct c as [|s| |]; simpl.
  - pose proof (wf_read w Hwf). by destruct (Reader.read w).
  - pose proof (wf_write s w Hwf). by destruct (Writer.write s w).
  - pose proof (wf_reader_close w Hwf). by destruct (Reader.close w).
  - pose proof (wf_writer_close w Hwf). by destruct (Writer.close w).
Qed.

Lemma run_cons (c : Call) (calls : list Call) (w : World) :
  run (c :: calls) w =
    ((step w c).1 :: (run calls (step w c).2).1, (run calls (step w c).2).2).
Proof. simpl. destruct (step w c) as [r w']. simpl. by destruct (run calls w'). Qed.

Lemma run_app (calls1 calls2 : list Call) (w : World) :
  run (calls1 ++ calls2) w =
    ((run calls1 w).1 ++ (run calls2 (run calls1 w).2).1,
     (run calls2 (run calls1 w).2).2).
Proof.
  revert w. induction calls1 as [|c calls1 IH]; intros w.
  - simpl. by destruct (run calls2 w).
  - rewrite <- app_comm_cons, !run_cons, IH. done.
Qed.

(** Every property that the fresh pipe has and that every call preserves
    holds after every execution. *)
Lemma run_invariant (P : World → Prop) :
  (∀ w c, P w → P (step w c).2) →
  ∀ calls w, P w → P (run calls w).2.
Proof.
  intros Hstep calls. induction calls as [|c calls IH]; intros w Hw; [done|].
  rewrite run_cons. simpl. apply IH. by apply Hstep.
Qed.

Lemma wf_run (calls : list Call) (w : World) : wf w → wf (run calls w).2.
Proof. apply run_invariant. intros w' c. apply wf_step. Qed.

Lemma wf_reachable (w : World) : reachable w → wf w.
Proof. intros [calls <-]. apply wf_run, wf_fresh. Qed.

End pipe_invariant.

(** ** The pipe: closing an end *)

Ltac pipe_cases :=
  unfold Pipe.step, Pipe.Reader.read, Pipe.Reader.close, Pipe.Writer.write,
    Pipe.Writer.close, Pipe.new_future, Pipe.with_data; simpl;
  repeat first [case_decide | case_bool_decide | case_match]; simpl in *;
  rewrite ?complete_all_set, ?complete_all_fail; simpl;
  rewrite ?complete_all_data; simpl; simplify_eq/=.

Section pipe_closing.
Import Pipe.

Lemma with_data_id (w : World) : with_data w (data w) = w.
Proof. by destruct w. Qed.

Lemma read_end_stays_closed (calls : list Call) (w : World) :
  readEnd (data w) = CLOSED → readEnd (data (run calls w).2) = CLOSED.
Proof.
  apply (run_invariant (λ w, readEnd (data w) = CLOSED)).
  clear. intros [[re we ws rs rc] fs tr] c Hre. simpl in Hre. subst re.
  destruct c as [|s| |]; pipe_cases; done.
Qed.

Lemma write_end_stays_closed (calls : list Call) (w : World) :
  writeEnd (data w) = CLOSED → writeEnd (data (run calls w).2) = CLOSED.
Proof.
  apply (run_invariant (λ w, writeEnd (data w) = CLOSED)).
  clear. intros [[re we ws rs rc] fs tr] c Hwe. simpl in Hwe. subst we.
  destruct c as [|s| |]; pipe_cases; try done; naive_solver.
Qed.

(** C4: after every sequence of calls on a fresh pipe, the queue of
    buffered chunks and the queue of pending reads are not both
    non-empty. *)
Theorem writes_reads_never_both (calls : list Call) :
  let w := (run calls fresh).2 in
  ¬ (writes (data w) ≠ [] ∧ reads (data w) ≠ []).
Proof.
  simpl. intros [Hw Hr].
  destruct (wf_exclusive _ (wf_run calls fresh wf_fresh)); done.
Qed.

(** C5: the first [Reader::close] returns true, leaves no buffered chunk
    and no pending read, and has failed each pending read with [closed];
    whatever is called next, a [write] returns false and changes nothing,
    and a [read] returns a future that has failed with [closed]. *)
Theorem reader_close_first (calls : list Call) :
  let w := (run calls fresh).2 in
  readEnd (data w) = OPEN →
  let w' := (Reader.close w).2 in
  (Reader.close w).1 = true ∧
  readEnd (data w') = CLOSED ∧
  writes (data w') = [] ∧
  reads (data w') = [] ∧
  (∀ p, p ∈ reads (data w) →
     futures w !! p = Some PENDING ∧ futures w' !! p = Some (FAILED "closed")) ∧
  (∀ later s,
     let v := (run later w').2 in
     Writer.write s v = (false, v) ∧
     futures (Reader.read v).2 !! (Reader.read v).1 = Some (FAILED "closed")).
Proof.
  simpl. intros Hopen.
  pose proof (wf_run calls fresh wf_fresh) as Hwf.
  set (w := (run calls fresh).2) in *.
  assert (Hclose : (Reader.close w).1 = true ∧
    data (Reader.close w).2 =
      {| readEnd := CLOSED; writeEnd := writeEnd (data w); writes := [];
         reads := [];
         readerClosure := if bool_decide (writeEnd (data w) = OPEN)
                          then match readerClosure (data w) with
                               | PENDING => READY ()
                               | f => f
                               end
                          else readerClosure (data w) |} ∧
    ∀ p, futures (Reader.close w).2 !! p =
           match futures w !! p with
           | Some PENDING =>
               if decide (p ∈ reads (data w)) then Some (FAILED "closed")
               else Some PENDING
           | other => other
           end).
  { unfold Reader.close. rewrite decide_True by done.
    rewrite complete_all_fail.
    destruct (bool_decide (writeEnd (data w) = OPEN)); simpl;
      rewrite ?complete_all_data; simpl; (split; [done|split; [done|]]);
      intros p; by rewrite complete_all_lookup by done. }
  destruct Hclose as (Hret & Hdata & Hfut).
  split; [done|]. rewrite Hdata. simpl. do 3 (split; [done|]). split.
  - intros p Hp. pose proof (wf_pending _ Hwf) as Hpen.
    rewrite Forall_forall in Hpen. specialize (Hpen p Hp).
    split; [done|]. rewrite Hfut, Hpen. by rewrite decide_True.
  - intros later s.
    assert (Hclosed : readEnd (data (run later (Reader.close w).2).2) = CLOSED).
    { apply read_end_stays_closed. by rewrite Hdata. }
    set (v := (run later (Reader.close w).2).2) in *. split.
    + unfold Writer.write. rewrite decide_False; [|intros [_ ?]; congruence].
      simpl. by rewrite with_data_id.
    + unfold Reader.read. rewrite decide_True by done. simpl.
      by rewrite lookup_app_r, Nat.sub_diag.
Qed.

(** A pipe with two reads waiting: the first close of the read end. *)
Lemma reader_close_first_witness :
  let w := (run [read; read] fresh).2 in
  readEnd (data w) = OPEN ∧
  (Reader.close w).1 = true ∧
  futures (Reader.close w).2 = [FAILED "closed"; FAILED "closed"].
Proof.
  split; [reflexivity|].
  split; [apply (reader_close_first [read; read]); reflexivity|reflexivity].
Defined.

Lemma step_futures (c : Call) (w : World) :
  (step w c).1 = match c with
                 | read => future (length (futures w))
                 | _ => (step w c).1
                 end ∧
  (c ≠ read → ∃ b, (step w c).1 = bool_ b) ∧
  length (futures (step w c).2) =
    match c with
    | read => S (length (futures w))
    | _ => length (futures w)
    end.
Proof.
  assert (Hall : ∀ event f ps v,
    length (futures (complete_all event f ps v)) = length (futures v)).
  { intros event f ps. induction ps as [|p ps IH]; intros v; [done|].
    simpl. rewrite IH. simpl. unfold complete.
    destruct (futures v !! p) as [[| |]|]; by rewrite ?length_insert. }
  destruct w as [[re we ws rs rc] fs tr].
  destruct c as [|s| |]; pipe_cases; rewrite ?length_app; simpl;
    rewrite ?Hall; simpl; (split; [done|split; [by eauto|]]); try done; try lia.
  unfold complete; simpl. by case_match; try case_match; rewrite ?length_insert.
Qed.

(** The futures that the reads return are the addresses [0], [1], ... in
    the order of the calls. *)
Lemma obtained_run (calls : list Call) (w : World) :
  obtained (run calls w).1 =
    seq (length (futures w))
        (length (futures (run calls w).2) - length (futures w)) ∧
  length (futures w) ≤ length (futures (run calls w).2).
Proof.
  revert w. induction calls as [|c calls IH]; intros w.
  - simpl. by rewrite Nat.sub_diag.
  - rewrite run_cons. cbn [fst snd].
    destruct (IH (step w c).2) as [IH1 IH2].
    destruct (step_futures c w) as (Hret & Hbool & Hlen).
    set (w1 := (step w c).2) in *. set (r := (step w c).1) in *.
    clearbody w1 r. unfold obtained in *. cbn [omap list_omap].
    destruct c as [|s| |].
    1: { subst r. rewrite IH1, Hlen. split; [|lia].
         replace (length (futures (run calls w1).2) - length (futures w))
           with (S (length (futures (run calls w1).2) - S (length (futures w))))
           by lia.
         done. }
    all: destruct Hbool as [b ->]; [done|]; rewrite IH1, Hlen; split; [done|lia].
Qed.

(** C6: the first [Writer::close] returns true and completes the pending
    reads with the empty chunk, one [set] per pending read in the order of
    the queue, which is the order in which the reads were issued (the
    futures of the reads are numbered in call order and the queue is
    increasing); the write end is then closed and the buffered chunks are
    those of before, so that the next read gets the oldest of them.
    Whatever is called next, another [Writer::close] returns false and
    changes nothing. *)
Theorem writer_close_first (calls : list Call) :
  let w := (run calls fresh).2 in
  writeEnd (data w) = OPEN →
  let w' := (Writer.close w).2 in
  (Writer.close w).1 = true ∧
  trace w' = trace w ++ ((λ p, set_ p "") <$> reads (data w)) ∧
  obtained (run calls fresh).1 = seq 0 (length (futures w)) ∧
  StronglySorted lt (reads (data w)) ∧
  (∀ p, p ∈ reads (data w) →
     futures w !! p = Some PENDING ∧ futures w' !! p = Some (READY "")) ∧
  writeEnd (data w') = CLOSED ∧
  writes (data w') = writes (data w) ∧
  reads (data w') = [] ∧
  (∀ front rest, writes (data w) = front :: rest →
     futures (Reader.read w').2 !! (Reader.read w').1 = Some (READY front)) ∧
  (∀ later,
     let v := (run later w').2 in Writer.close v = (false, v)).
Proof.
  simpl. intros Hopen.
  pose proof (wf_run calls fresh wf_fresh) as Hwf.
  destruct (obtained_run calls fresh) as [Hobt _]. simpl in Hobt.
  rewrite Nat.sub_0_r in Hobt.
  set (w := (run calls fresh).2) in *.
  assert (Hclose : Writer.close w =
    (true, complete_all (λ p, set_ p "") (READY "") (reads (data w))
             (with_data w {| readEnd := readEnd (data w); writeEnd := CLOSED;
                             writes := writes (data w); reads := [];
                             readerClosure := readerClosure (data w) |}))).
  { unfold Writer.close. by rewrite decide_True by done. }
  rewrite Hclose. simpl. split; [done|].
  rewrite complete_all_trace, complete_all_data. simpl.
  do 2 (split; [done|]). split; [apply Hwf|].
  split; [|do 3 (split; [done|]); split].
  - intros p Hp. pose proof (wf_pending _ Hwf) as Hpen.
    rewrite Forall_forall in Hpen. specialize (Hpen p Hp).
    split; [done|]. rewrite complete_all_lookup by done. simpl.
    rewrite Hpen. by rewrite decide_True.
  - intros front rest Hws.
    assert (Hre : readEnd (data w) = OPEN).
    { destruct (readEnd (data w)) eqn:Hre; [done|].
      destruct (wf_read_closed _ Hwf Hre) as [Hnil _]. congruence. }
    unfold Reader.read. rewrite complete_all_data. simpl.
    rewrite decide_False by congruence. rewrite Hws. simpl.
    by rewrite lookup_app_r, Nat.sub_diag.
  - intros later.
    match goal with |- context [run later ?w0] => set (w' := w0) end.
    assert (Hclosed : writeEnd (data (run later w').2) = CLOSED).
    { apply write_end_stays_closed. unfold w'. by rewrite complete_all_data. }
    unfold Writer.close. rewrite decide_False by congruence.
    simpl. by rewrite with_data_id.
Qed.

(** Three reads waiting when the write end closes. *)
Lemma writer_close_first_witness :
  let w := (run [read; read; read] fresh).2 in
  writeEnd (data w) = OPEN ∧
  (Writer.close w).1 = true ∧
  trace (Writer.close w).2 = [set_ 0 ""; set_ 1 ""; set_ 2 ""].
Proof.
  split; [reflexivity|].
  split; [apply (writer_close_first [read; read; read]); reflexivity|reflexivity].
Defined.

End pipe_closing.

(** ** The pipe: [readerClosure] *)

Section pipe_closure.
Import Pipe.

Lemma closure_sets_app (tr1 tr2 : list Event) :
  closure_sets (tr1 ++ tr2) = closure_sets tr1 + closure_sets tr2.
Proof. unfold closure_sets. by rewrite filter_app, length_app. Qed.

Lemma closure_sets_promises (event : nat → Event) (ps : list nat) :
  (∀ p, event p ≠ set_readerClosure) → closure_sets (event <$> ps) = 0.
Proof.
  intros Hev. unfold closure_sets. induction ps as [|p ps IH]; [done|].
  simpl. by rewrite filter_cons_False by apply Hev.
Qed.

(** What one call does to [readerClosure] and to the count of its
    [set]s. *)
Lemma step_closure (w : World) (c : Call) :
  readerClosure (data (step w c).2) =
    (if decide (notifies w c)
     then match readerClosure (data w) with PENDING => READY () | f => f end
     else readerClosure (data w)) ∧
  closure_sets (trace (step w c).2) =
    closure_sets (trace w) + (if decide (notifies w c) then 1 else 0).
Proof.
  unfold notifies. destruct w as [[re we ws rs rc] fs tr].
  destruct c as [|s| |]; pipe_cases;
    rewrite ?complete_all_trace; simpl;
    rewrite ?closure_sets_app, ?closure_sets_promises by done; simpl;
    try (rewrite decide_False by (intuition congruence));
    try (rewrite decide_True by done);
    try done; split; try done; try (unfold closure_sets; simpl; lia).
  all: exfalso; intuition congruence.
Qed.

Lemma closure_inv_step (w : World) (c : Call) :
  closure_inv w → closure_inv (step w c).2.
Proof.
  unfold closure_inv. intros Hinv.
  destruct (step_closure w c) as [Hrc Hsets]. rewrite Hrc, Hsets.
  destruct (decide (notifies w c)) as [(-> & Hre & Hwe)|Hno].
  - destruct (readerClosure (data w)) as [|[]|];
      [|destruct Hinv; congruence|done].
    split; [|lia].
    apply (read_end_stays_closed [] (step w reader_close).2).
    destruct w as [[re we ws rs rc] fs tr]. simpl in *. subst. by pipe_cases.
  - rewrite Nat.add_0_r. destruct (readerClosure (data w)) as [|[]|]; try done.
    destruct Hinv as [Hre Hsets']. split; [|done].
    pose proof (read_end_stays_closed [c] w Hre) as Hc.
    rewrite run_cons in Hc. done.
Qed.

Lemma closure_inv_run (calls : list Call) :
  closure_inv (run calls fresh).2.
Proof. by apply (run_invariant closure_inv); [apply closure_inv_step|]. Qed.

(** Once the write end is closed, [readerClosure] stays as it is. *)
Lemma closure_frozen (calls : list Call) (w : World) :
  writeEnd (data w) = CLOSED →
  readerClosure (data (run calls w).2) = readerClosure (data w).
Proof.
  revert w. induction calls as [|c calls IH]; intros w Hwe; [done|].
  rewrite run_cons. cbn [snd].
  pose proof (write_end_stays_closed [c] w Hwe) as Hc. rewrite run_cons in Hc.
  rewrite IH by done. destruct (step_closure w c) as [-> _].
  rewrite decide_False; [done|]. unfold notifies. intros (_ & _ & ?). congruence.
Qed.

(** C7: after every execution, [readerClosure] is ready exactly when some
    [Reader::close] of the execution found both ends open; it is pending
    when the write end was closed while the read end was still open; and
    [readerClosure.set] has been called at most once. *)
Theorem readerClosure_iff (calls : list Call) :
  let w := (run calls fresh).2 in
  (Writer.readerClosed w = READY () ↔
     ∃ before after, calls = before ++ reader_close :: after ∧
       readEnd (data (run before fresh).2) = OPEN ∧
       writeEnd (data (run before fresh).2) = OPEN) ∧
  (∀ before after, calls = before ++ after →
     writeEnd (data (run before fresh).2) = CLOSED →
     readEnd (data (run before fresh).2) = OPEN →
     Writer.readerClosed w = PENDING) ∧
  closure_sets (trace w) ≤ 1.
Proof.
  simpl. unfold Writer.readerClosed. split; [|split].
  - induction calls as [|c calls IH] using rev_ind.
    { split; [done|]. intros (before & after & Heq & _). by destruct before. }
    rewrite run_app. cbn [snd]. set (w := (run calls fresh).2) in *.
    rewrite run_cons. cbn [snd run].
    destruct (step_closure w c) as [-> _].
    pose proof (closure_inv_run calls) as Hinv. fold w in Hinv.
    unfold closure_inv in Hinv. split.
    + intros Hready. destruct (decide (notifies w c)) as [(-> & Hre & Hwe)|Hno].
      * by exists calls, [].
      * apply IH in Hready as (before & after & -> & Hre & Hwe).
        exists before, (after ++ [c]). by rewrite <- app_assoc.
    + intros (before & after & Heq & Hre & Hwe).
      destruct after as [|a after _] using rev_ind.
      * apply app_inj_tail in Heq as [-> ->].
        rewrite decide_True by done.
        by destruct (readerClosure (data w)) as [|[]|].
      * rewrite app_comm_cons, app_assoc in Heq.
        apply app_inj_tail in Heq as [-> ->].
        assert (Hready : readerClosure (data w) = READY ()).
        { apply IH. by exists before, after. }
        rewrite Hready. by destruct (decide _).
  - intros before after -> Hwe Hre.
    rewrite run_app. cbn [snd]. rewrite closure_frozen by done.
    pose proof (closure_inv_run before) as Hinv. unfold closure_inv in Hinv.
    destruct (readerClosure (data (run before fresh).2)) as [|[]|]; [done| |done].
    destruct Hinv. congruence.
  - pose proof (closure_inv_run calls) as Hinv. unfold closure_inv in Hinv.
    destruct (readerClosure (data (run calls fresh).2)) as [|[]|]; [lia| |done].
    destruct Hinv. lia.
Qed.

(** The read end closes first, then the write end. *)
Lemma readerClosure_iff_witness :
  Writer.readerClosed (run [read; reader_close; writer_close] fresh).2 = READY ().
Proof.
  apply (proj1 (readerClosure_iff [read; reader_close; writer_close])).
  by exists [read], [writer_close].
Defined.

End pipe_closure.

(** ** The pipe: FIFO delivery *)

Section pipe_fifo.
Import Pipe.

Lemma drop_cons_inv {A} (n : nat) (l : list A) (x : A) (rest : list A) :
  drop n l = x :: rest → l !! n = Some x ∧ drop (S n) l = rest ∧ n < length l.
Proof.
  revert l. induction n as [|n IH]; intros [|y l] Hd; simplify_eq/=.
  - split; [done|]. split; [by rewrite drop_0|lia].
  - destruct (IH _ Hd) as (? & ? & ?). split; [done|]. split; [done|lia].
Qed.

Lemma fifo_inv_fresh : fifo_inv [] fresh.
Proof.
  repeat split; simpl; try done; try lia; constructor.
Qed.

Lemma fifo_inv_read (W : list string) (w : World) :
  fifo_inv W w → fifo_inv W (Reader.read w).2.
Proof.
  destruct w as [[re we ws rs rc] fs tr].
  intros (Hre & Hwe & Hfut & Hws & Hrs & Hsort & Hbound). simpl in *. subst re we.
  unfold Reader.read, new_future, with_data. simpl.
  destruct ws as [|front rest]; simpl.
  - symmetry in Hws. apply drop_nil_inv in Hws.
    repeat split; simpl; try done.
    + intros i Hi. rewrite length_app in Hi. simpl in Hi.
      destruct (decide (i = length fs)) as [->|Hne].
      * rewrite lookup_app_r, Nat.sub_diag by done. simpl.
        by rewrite lookup_ge_None_2.
      * rewrite lookup_app_l by lia. apply Hfut. lia.
    + rewrite length_app. simpl. by rewrite drop_ge by lia.
    + rewrite length_app. simpl. rewrite Hrs.
      replace (length fs + 1 - length W) with (S (length fs - length W)) by lia.
      rewrite seq_S. do 2 f_equal. lia.
  - symmetry in Hws. apply drop_cons_inv in Hws as (Hfront & Hrest & Hlt).
    repeat split; simpl; try done.
    + intros i Hi. rewrite length_app in Hi. simpl in Hi.
      destruct (decide (i = length fs)) as [->|Hne].
      * rewrite lookup_app_r, Nat.sub_diag by done. simpl. by rewrite Hfront.
      * rewrite lookup_app_l by lia. apply Hfut. lia.
    + rewrite length_app. simpl. by rewrite Nat.add_1_r.
    + rewrite length_app. simpl. rewrite Hrs.
      replace (length fs - length W) with 0 by lia.
      by replace (length fs + 1 - length W) with 0 by lia.
Qed.

Lemma fifo_inv_write (W : list string) (w : World) (s : string) :
  s ≠ "" → fifo_inv W w → fifo_inv (W ++ [s]) (Writer.write s w).2.
Proof.
  destruct w as [[re we ws rs rc] fs tr].
  intros Hs (Hre & Hwe & Hfut & Hws & Hrs & Hsort & Hbound). simpl in *. subst re we.
  unfold Writer.write, with_data. simpl.
  destruct (decide (OPEN = OPEN ∧ OPEN = OPEN)) as [_|Hno]; [|by destruct Hno].
  destruct (decide (s ≠ "")) as [_|Hno]; [|done].
  destruct rs as [|front rest]; simpl.
  - assert (Hle : length fs ≤ length W).
    { destruct (decide (length fs ≤ length W)) as [|Hgt]; [done|].
      replace (length fs - length W) with (S (length fs - length W - 1)) in Hrs by lia.
      done. }
    repeat split; simpl; try done.
    + intros i Hi. rewrite lookup_app_l by lia. by apply Hfut.
    + rewrite Hws. by rewrite drop_app_le by done.
    + rewrite length_app. simpl.
      by replace (length fs - (length W + 1)) with 0 by lia.
    + eapply Forall_impl; [done|]. intros p Hp. simpl in *.
      rewrite length_app. simpl. lia.
  - assert (Hgt : length W < length fs).
    { destruct (decide (length W < length fs)) as [|Hle]; [done|].
      by replace (length fs - length W) with 0 in Hrs by lia. }
    replace (length fs - length W) with (S (length fs - length W - 1)) in Hrs by lia.
    simpl in Hrs. injection Hrs as -> ->.
    assert (Hpending : fs !! length W = Some PENDING).
    { rewrite Hfut by done. by rewrite lookup_ge_None_2. }
    unfold Promise_set, complete. cbn [futures]. rewrite Hpending.
    repeat split; simpl; try done.
    + intros i Hi. rewrite length_insert in Hi.
      destruct (decide (i = length W)) as [->|Hne].
      * rewrite list_lookup_insert_eq by done.
        by rewrite lookup_app_r, Nat.sub_diag.
      * rewrite list_lookup_insert_ne by done. rewrite Hfut by done.
        destruct (decide (i < length W)).
        -- by rewrite lookup_app_l by done.
        -- rewrite !lookup_ge_None_2; [done| |lia].
           rewrite length_app. simpl. lia.
    + rewrite length_insert. rewrite Hws.
      rewrite !drop_ge; [done| |lia]. rewrite length_app. simpl. lia.
    + rewrite length_insert, length_app. simpl. f_equal; lia.
    + unfold fulfilled in *. rewrite omap_app. simpl. by apply sorted_snoc.
    + unfold fulfilled in *. rewrite omap_app. simpl.
      rewrite length_app. simpl. apply Forall_app. split.
      * eapply Forall_impl; [done|]. intros p Hp. simpl in *. lia.
      * repeat constructor. lia.
Qed.

Lemma fifo_inv_run (calls : list Call) :
  Forall fifo_call calls → fifo_inv (written calls) (run calls fresh).2.
Proof.
  induction calls as [|c calls IH] using rev_ind; intros Hcalls.
  { apply fifo_inv_fresh. }
  apply Forall_app in Hcalls as [Hcalls Hc]. rewrite Forall_singleton in Hc.
  unfold fifo_call in Hc.
  specialize (IH Hcalls).
  rewrite run_app. cbn [snd]. rewrite run_cons. cbn [snd run].
  unfold written in *. rewrite omap_app.
  destruct Hc as [->|(s & -> & Hs)]; simpl.
  - rewrite app_nil_r. pose proof (fifo_inv_read _ _ IH) as Hr.
    by destruct (Reader.read (run calls fresh).2).
  - pose proof (fifo_inv_write _ _ s Hs IH) as Hw.
    by destruct (Writer.write s (run calls fresh).2).
Qed.

(** C3: whatever the interleaving of reads and of writes of non-empty
    chunks on a fresh pipe, the future of the [i]-th read holds the
    [i]-th chunk written, or is pending while fewer chunks have been
    written; the chunks not yet read are buffered in write order; and the
    pending promises were completed in the order in which their reads were
    issued. *)
Theorem pipe_fifo (calls : list Call) :
  (∀ c, c ∈ calls → c = read ∨ ∃ s, c = write s ∧ s ≠ "") →
  let returns := (run calls fresh).1 in
  let w := (run calls fresh).2 in
  obtained returns = seq 0 (length (obtained returns)) ∧
  (∀ i f, obtained returns !! i = Some f →
     futures w !! f = Some (match written calls !! i with
                            | Some s => READY s
                            | None => PENDING
                            end)) ∧
  writes (data w) = drop (length (obtained returns)) (written calls) ∧
  StronglySorted lt (fulfilled (trace w)).
Proof.
  intros Hcalls. simpl.
  assert (Hfifo : Forall fifo_call calls) by by apply Forall_forall.
  destruct (fifo_inv_run calls Hfifo) as (_ & _ & Hfut & Hws & _ & Hsort & _).
  destruct (obtained_run calls fresh) as [Hobt _]. simpl in Hobt.
  rewrite Nat.sub_0_r in Hobt. rewrite Hobt, length_seq.
  repeat split; try done.
  intros i f Hi. apply lookup_seq in Hi as [-> Hi]. simpl. by apply Hfut.
Qed.

(** A read that waits, two writes, and two reads that find a chunk or
    wait. *)
Lemma pipe_fifo_witness :
  let calls := [read; write "a"; write "b"; read; read] in
  (∀ c, c ∈ calls → c = read ∨ ∃ s, c = write s ∧ s ≠ "") ∧
  writes (data (run calls fresh).2) =
    drop (length (obtained (run calls fresh).1)) (written calls).
Proof.
  assert (Hcalls : ∀ c, c ∈ [read; write "a"; write "b"; read; read] →
                        c = read ∨ ∃ s, c = write s ∧ s ≠ "").
  { intros c Hc. rewrite !elem_of_cons, elem_of_nil in Hc.
    destruct Hc as [->|[->|[->|[->|[->|[]]]]]];
      first [by left | right; eexists; split; [reflexivity|discriminate]]. }
  split; [exact Hcalls|].
  exact (proj1 (proj2 (proj2 (pipe_fifo _ Hcalls)))).
Defined.

End pipe_fifo.

(** ** Response framing *)

Section framing.
Context {Response : Type}.
Variable decoder : string → bool * list Response.

(** C9: [decode] fails exactly when the parser reports failure or yields
    no response, and the message then contains the buffer; when the parser
    succeeds with at least one response the answer is the first one, and
    the error log gets a line exactly when there are more. *)
Theorem decode_framing (buffer : string) :
  let failed := (decoder buffer).1 in
  let responses := (decoder buffer).2 in
  let answer := (internal.decode decoder buffer).1 in
  let log := (internal.decode decoder buffer).2 in
  ((failed = true ∨ responses = []) ↔ ∃ message, answer = FAILED message) ∧
  (∀ message, answer = FAILED message →
     ∃ before after, message = before +:+ buffer +:+ after) ∧
  (failed = false → ∀ response rest, responses = response :: rest →
     answer = READY response ∧ (log ≠ [] ↔ rest ≠ [])).
Proof.
  simpl. unfold internal.decode.
  destruct (decoder buffer) as [failed responses]. simpl.
  destruct failed; simpl.
  - split; [|split; [|done]].
    + split; [eauto|]. by left.
    + intros message [= <-].
      by exists ("Failed to decode HTTP response:" +:+ LF), LF.
  - destruct responses as [|response rest]; simpl.
    + split; [|split; [|done]].
      * split; [eauto|]. by right.
      * intros message [= <-].
      by exists ("Failed to decode HTTP response:" +:+ LF), LF.
    + split; [|split; [done|]].
      * split; [by intros [|]|]. by intros [message ?].
      * intros _ ? ? [= <- <-]. split; [done|].
        destruct rest as [|second rest]; simpl; [done|].
        by split.
Qed.

End framing.

(** A parser that finds two responses in the buffer: the first one is the
    answer, and the log has a line. *)
Lemma decode_framing_witness :
  let decoder (buffer : string) := (false, ["first"; "second"]) in
  (internal.decode decoder "HTTP/1.1 200 OK").1 = READY "first" ∧
  ((internal.decode decoder "HTTP/1.1 200 OK").2 ≠ [] ↔ ["second"] ≠ []).
Proof.
  exact (proj2 (proj2 (decode_framing (λ _, (false, ["first"; "second"]))
                         "HTTP/1.1 200 OK"))
           eq_refl "first" ["second"] eq_refl).
Defined.

(** ** Request rendering *)

Lemma foldl_header_lines (emitted : list (string * string)) (out : string) :
  foldl (λ out '(key, value), out +:+ key +:+ ": " +:+ value +:+ CRLF)
        out emitted
  = out +:+ header_block emitted.
Proof.
  revert out. induction emitted as [|[key value] emitted IH]; intros out; simpl.
  - by rewrite string_app_nil_r.
  - rewrite IH. unfold header_line. simpl. by rewrite !string_app_assoc.
Qed.

Lemma foldl_raw_pairs (pairs : list (string * string)) (query : list string) :
  foldl (λ query '(key, value), query ++ [key +:+ "=" +:+ value]) query pairs
  = query ++ (raw_pair <$> pairs).
Proof.
  revert query. induction pairs as [|[key value] pairs IH]; intros query; simpl.
  - by rewrite app_nil_r.
  - by rewrite IH, <- app_assoc.
Qed.

Section rendering.
Variable stringify : Address.Address → string.
Variable foreachpair : gmap string string → list (string * string).

(** The text that [_request] sends, taken apart. *)
Lemma _request_out_parts (address : Address.Address) (url : URL.URL)
    (method : string) (_headers : option (gmap string string))
    (body contentType : option string) :
  internal._request_out stringify foreachpair address url method _headers
    body contentType =
  method +:+ " " +:+ request_target url (foreachpair (URL.query url)) +:+
  " HTTP/1.1" +:+ CRLF +:+
  header_block
    (foreachpair (internal._request_headers stringify address _headers
                    body contentType)) +:+
  CRLF +:+ default "" body.
Proof.
  unfold internal._request_out, request_target, header_block.
  rewrite foldl_header_lines, foldl_raw_pairs. simpl.
  destruct (decide (URL.query url ≠ ∅)), (URL.fragment url), body; simpl;
    rewrite ?string_app_assoc, ?string_app_nil_r; done.
Qed.

Lemma _request_headers_lookup (address : Address.Address)
    (_headers : option (gmap string string))
    (body contentType : option string) (key : string) :
  internal._request_headers stringify address _headers body contentType !! key
  = expected_header (stringify address) _headers body contentType key.
Proof.
  unfold internal._request_headers, expected_header.
  destruct _headers as [given|], body as [content|], contentType as [type|];
    simpl; repeat case_decide; simplify_map_eq; done.
Qed.

Hypothesis foreachpair_visits : ∀ m, foreachpair m ≡ₚ map_to_list m.

(** C2, as amended: the request is the request line, the header lines,
    an empty line and the body if there is one.  Every header is emitted
    once, as [Key: Value] and a line end, and the headers emitted are the
    caller's with [Host] set to the printed address of the peer (its IP
    and port, not the domain of the URL), [Connection] set to [close],
    [Content-Type] set to the explicit argument when there is one and
    [Content-Length] set to the length of the body when there is one. *)
Theorem request_rendering (address : Address.Address) (url : URL.URL)
    (method : string) (_headers : option (gmap string string))
    (body contentType : option string) :
  ∃ emitted : list (string * string),
    internal._request_out stringify foreachpair address url method _headers
      body contentType =
    method +:+ " " +:+ request_target url (foreachpair (URL.query url)) +:+
    " HTTP/1.1" +:+ CRLF +:+ header_block emitted +:+ CRLF +:+ default "" body ∧
    NoDup emitted.*1 ∧
    ∀ key value,
      (key, value) ∈ emitted ↔
      expected_header (stringify address) _headers body contentType key
        = Some value.
Proof.
  eexists. split; [apply _request_out_parts|]. split.
  - rewrite foreachpair_visits. apply NoDup_fst_map_to_list.
  - intros key value. rewrite foreachpair_visits, elem_of_map_to_list.
    by rewrite _request_headers_lookup.
Qed.

End rendering.

(** The request of the specification's example, [GET] of
    [http://host:80/a/b?x=1] without a body, the domain resolved to
    [10.0.0.1]. *)
Lemma request_rendering_witness :
  let url := {| URL.scheme := "http"; URL.ip := None;
                URL.domain := Some "host"; URL.port := 80%N;
                URL.path := "/a/b"; URL.query := {["x" := "1"]};
                URL.fragment := None |} in
  let address := {| Address.ip := 167772161%N; Address.port := 80%N |} in
  ∃ emitted : list (string * string),
    internal._request_out stringify_address map_to_list address url "GET"
      None None None =
    "GET /a/b?x=1 HTTP/1.1" +:+ CRLF +:+ header_block emitted +:+ CRLF ∧
    NoDup emitted.*1 ∧
    ∀ key value,
      (key, value) ∈ emitted ↔
      expected_header "10.0.0.1:80" None None None key = Some value.
Proof.
  exact (request_rendering stringify_address map_to_list
           (λ m, reflexivity (map_to_list m))
           {| Address.ip := 167772161%N; Address.port := 80%N |}
           {| URL.scheme := "http"; URL.ip := None;
              URL.domain := Some "host"; URL.port := 80%N;
              URL.path := "/a/b"; URL.query := {["x" := "1"]};
              URL.fragment := None |}
           "GET" None None None).
Defined.

(** The domain of the URL does not reach the request: whatever the
    printing of addresses, the text is the same for every domain. *)
Lemma _request_out_ignores_domain (stringify : Address.Address → string)
    (foreachpair : gmap string string → list (string * string))
    (address : Address.Address) (url : URL.URL) (domain : option string)
    (method : string) (_headers : option (gmap string string))
    (body contentType : option string) :
  internal._request_out stringify foreachpair address
    {| URL.scheme := URL.scheme url; URL.ip := URL.ip url;
       URL.domain := domain; URL.port := URL.port url;
       URL.path := URL.path url; URL.query := URL.query url;
       URL.fragment := URL.fragment url |}
    method _headers body contentType
  = internal._request_out stringify foreachpair address url method _headers
      body contentType.
Proof. done. Qed.

(** C2 as stated fails in its example: for [GET] of
    [http://host:80/a/b?x=1], the domain resolved to [10.0.0.1], the
    [Host] header is [10.0.0.1:80], the printed address, and not
    [host:80]. *)
Lemma host_header_is_the_address :
  let url := {| URL.scheme := "http"; URL.ip := None;
                URL.domain := Some "host"; URL.port := 80%N;
                URL.path := "/a/b"; URL.query := {["x" := "1"]};
                URL.fragment := None |} in
  let address := {| Address.ip := 167772161%N; Address.port := 80%N |} in
  internal._request_out stringify_address map_to_list address url "GET"
    None None None =
  "GET /a/b?x=1 HTTP/1.1" +:+ CRLF +:+
  "Connection: close" +:+ CRLF +:+
  "Host: 10.0.0.1:80" +:+ CRLF +:+ CRLF ∧
  internal._request_headers stringify_address address None None None !! "Host"
    = Some "10.0.0.1:80" ∧
  internal._request_headers stringify_address address None None None !! "Host"
    ≠ Some "host:80".
Proof. vm_compute. by repeat split. Qed.

(** ** The query in the request line and in [query::encode] *)

Lemma substring_app_l (s t : string) :
  String.substring 0 (String.length s) (s +:+ t) = s.
Proof.
  induction s as [|c s IH].
  - by destruct t.
  - rewrite string_app_cons. simpl. by rewrite IH.
Qed.

Lemma substring_app_r (s t : string) :
  String.substring (String.length s) (String.length t) (s +:+ t) = t.
Proof.
  induction s as [|c s IH].
  - apply substring_all.
  - rewrite string_app_cons. simpl. apply IH.
Qed.

Lemma remove_suffix_app (s t : string) :
  stout.remove (s +:+ t) t stout.SUFFIX = s.
Proof.
  unfold stout.remove, stout.endsWith, stout.drop_prefix.
  rewrite string_app_length.
  replace (String.length s + String.length t - String.length t)
    with (String.length s) by lia.
  replace (String.length s + String.length t - String.length s)
    with (String.length t) by lia.
  rewrite substring_app_r, substring_app_l.
  rewrite bool_decide_true by done.
  by rewrite (proj2 (Nat.leb_le _ _)) by lia.
Qed.

Lemma join_snoc (separator : string) (pieces : list string) :
  pieces ≠ [] →
  foldr (λ piece block, piece +:+ separator +:+ block) "" pieces
  = stout.join separator pieces +:+ separator.
Proof.
  unfold stout.join. induction pieces as [|piece pieces IH]; [done|].
  intros _. simpl. destruct pieces as [|piece' pieces].
  - simpl. by rewrite string_app_nil_r.
  - rewrite IH by done. by rewrite !string_app_assoc.
Qed.

Section query_rendering.
Variable http_encode : string → string.
Variable stringify : Address.Address → string.
Variable foreachpair : gmap string string → list (string * string).

Lemma foldl_encoded_pairs (pairs : list (string * string)) (output : string) :
  foldl (λ output '(key, value),
           let output := output +:+ http_encode key in
           let output :=
             if decide (value ≠ "") then output +:+ ("=" +:+ http_encode value)
             else output in
           output +:+ "&")
        output pairs
  = output +:+
    foldr (λ piece block, piece +:+ "&" +:+ block) ""
          (encoded_pair http_encode <$> pairs).
Proof.
  revert output. induction pairs as [|[key value] pairs IH]; intros output; simpl.
  - by rewrite string_app_nil_r.
  - rewrite IH. unfold encoded_pair. simpl.
    destruct (decide (value ≠ "")); rewrite ?string_app_assoc, ?string_app_nil_l; done.
Qed.

(** [query::encode] joins the percent-encoded pairs with [&]; a pair with
    an empty value is its key alone. *)
Lemma encode_join (query : gmap string string) :
  query.encode http_encode foreachpair query
  = stout.join "&" (encoded_pair http_encode <$> foreachpair query).
Proof.
  unfold query.encode. rewrite foldl_encoded_pairs, string_app_nil_l.
  destruct (foreachpair query) as [|pair pairs]; [done|].
  rewrite join_snoc by done. apply remove_suffix_app.
Qed.

(** C10: in the request line the pairs of a non-empty query are written
    [key=value], as they are and with the [=] also before an empty value,
    and joined with [&]; [query::encode] joins with [&] too, but
    percent-encodes key and value and writes a pair with an empty value as
    the encoded key alone. *)
Theorem request_line_query (address : Address.Address) (url : URL.URL)
    (method : string) (_headers : option (gmap string string))
    (body contentType : option string) :
  URL.query url ≠ ∅ →
  (∃ rest,
     internal._request_out stringify foreachpair address url method _headers
       body contentType =
     method +:+ " /" +:+ stout.remove (URL.path url) "/" stout.PREFIX +:+ "?" +:+
     stout.join "&" ((λ pair, pair.1 +:+ "=" +:+ pair.2)
                       <$> foreachpair (URL.query url)) +:+ rest) ∧
  query.encode http_encode foreachpair (URL.query url) =
    stout.join "&"
      ((λ pair, http_encode pair.1 +:+
                (if decide (pair.2 ≠ "") then "=" +:+ http_encode pair.2 else ""))
         <$> foreachpair (URL.query url)).
Proof.
  intros Hquery. split; [|apply encode_join].
  rewrite _request_out_parts. unfold request_target.
  rewrite decide_True by done. eexists.
  rewrite !string_app_assoc. simpl. reflexivity.
Qed.

End query_rendering.

(** A query with a space in the key and an empty value: [a b=] in the
    request line, [a%20b] from [query::encode]. *)
Lemma request_line_query_witness :
  let url := {| URL.scheme := "http"; URL.ip := None;
                URL.domain := Some "host"; URL.port := 80%N;
                URL.path := "/p"; URL.query := {["a b" := ""]};
                URL.fragment := None |} in
  URL.query url ≠ ∅ ∧
  (∃ rest,
     internal._request_out stringify_address map_to_list
       {| Address.ip := 0%N; Address.port := 80%N |} url "GET" None None None
     = "GET /p?a b=" +:+ rest) ∧
  query.encode percent_encode map_to_list (URL.query url) = "a%20b".
Proof.
  assert (Hquery : ({["a b" := ""]} : gmap string string) ≠ ∅)
    by apply insert_non_empty.
  split; [exact Hquery|].
  exact (request_line_query percent_encode stringify_address map_to_list
           {| Address.ip := 0%N; Address.port := 80%N |}
           {| URL.scheme := "http"; URL.ip := None;
              URL.domain := Some "host"; URL.port := 80%N;
              URL.path := "/p"; URL.query := {["a b" := ""]};
              URL.fragment := None |}
           "GET" None None None Hquery).
Defined.

(** ** The query codec: tokens and pairs *)

Lemma free_of_cons (delims : string) (c : ascii) (s : string) :
  free_of delims (String c s) = negb (stout.contains c delims) && free_of delims s.
Proof. done. Qed.

Lemma free_of_app (delims s t : string) :
  free_of delims (s +:+ t) = free_of delims s && free_of delims t.
Proof. unfold free_of. by rewrite chars_app, forallb_app. Qed.

(** Fewer delimiters forbid less. *)
Lemma free_of_weaken (delims delims' s : string) :
  (∀ c, stout.contains c delims' = true → stout.contains c delims = true) →
  free_of delims s = true → free_of delims' s = true.
Proof.
  intros Hsub. induction s as [|c s IH]; [done|].
  rewrite !free_of_cons, !andb_true_iff, !negb_true_iff.
  intros [Hc Hs]. split; [|by apply IH].
  destruct (stout.contains c delims') eqn:Hc'; [|done].
  apply Hsub in Hc'. congruence.
Qed.

Lemma tokenize_from_free (delims t rest cur : string) :
  free_of delims t = true →
  stout.tokenize_from delims (t +:+ rest) cur
  = stout.tokenize_from delims rest (cur +:+ t).
Proof.
  revert cur. induction t as [|c t IH]; intros cur Hfree.
  - by rewrite string_app_nil_r.
  - rewrite free_of_cons, andb_true_iff, negb_true_iff in Hfree.
    destruct Hfree as [Hc Hfree]. rewrite string_app_cons. simpl. rewrite Hc.
    rewrite IH by done. by rewrite string_app_assoc.
Qed.

Lemma join_cons (separator piece piece' : string) (pieces : list string) :
  stout.join separator (piece :: piece' :: pieces)
  = piece +:+ separator +:+ stout.join separator (piece' :: pieces).
Proof. done. Qed.

Lemma tokenize_join (delims : string) (d : ascii) (pieces : list string) :
  stout.contains d delims = true →
  Forall (λ piece, piece ≠ "" ∧ free_of delims piece = true) pieces →
  stout.tokenize (stout.join (String d "") pieces) delims = pieces.
Proof.
  intros Hd. unfold stout.tokenize.
  induction 1 as [|piece pieces [Hne Hfree] Hall IH]; [done|].
  destruct pieces as [|piece' pieces].
  - unfold stout.join. cbn [String.concat].
    rewrite <- (string_app_nil_r piece) at 1.
    rewrite tokenize_from_free by done. simpl. by rewrite decide_False.
  - rewrite join_cons, tokenize_from_free by done.
    rewrite string_app_cons, !string_app_nil_l. cbn [stout.tokenize_from].
    rewrite Hd. rewrite decide_False by done. by rewrite IH.
Qed.

Lemma split_from_free (delims : string) (n : option nat) (t rest cur : string)
    (size : nat) :
  free_of delims t = true →
  stout.split_from delims n (t +:+ rest) cur size
  = stout.split_from delims n rest (cur +:+ t) size.
Proof.
  revert cur. induction t as [|c t IH]; intros cur Hfree.
  - by rewrite string_app_nil_r.
  - rewrite free_of_cons, andb_true_iff, negb_true_iff in Hfree.
    destruct Hfree as [Hc Hfree]. rewrite string_app_cons. simpl. rewrite Hc.
    rewrite IH by done. by rewrite string_app_assoc.
Qed.

(** [key=value] splits at its first [=]. *)
Lemma split_pair (key value : string) :
  free_of "=" key = true →
  stout.split (key +:+ "=" +:+ value) "=" (Some 2) = [key; value].
Proof.
  intros Hfree. unfold stout.split. by rewrite split_from_free by done.
Qed.

Lemma foldl_insert_list_to_map (pairs : list (string * string))
    (result : gmap string string) :
  foldl (λ result pair, <[pair.1 := pair.2]> result) result pairs
  = list_to_map (reverse pairs) ∪ result.
Proof.
  revert result. induction pairs as [|[key value] pairs IH]; intros result; simpl.
  - by rewrite (left_id_L ∅ (∪)).
  - rewrite IH, reverse_cons, list_to_map_app. simpl.
    rewrite <- (assoc_L (∪)). f_equal.
    rewrite insert_empty. by rewrite <- insert_union_singleton_l.
Qed.

Section query_roundtrip.
Variable http_encode : string → string.
Variable http_decode : string → Try string.
Variable foreachpair : gmap string string → list (string * string).

Lemma decode_tokens_encoded (pairs : list (string * string))
    (result : gmap string string) :
  Forall (λ pair, codable http_encode http_decode pair.1 ∧
                 codable http_encode http_decode pair.2) pairs →
  query.decode_tokens http_decode (encoded_pair http_encode <$> pairs) result
  = Ok (foldl (λ result pair, <[pair.1 := pair.2]> result) result pairs).
Proof.
  intros Hall. revert result.
  induction Hall as [|[key value] pairs [Hkey Hvalue] Hall IH]; intros result;
    [done|].
  destruct Hkey as (_ & Hkfree & Hkdec), Hvalue as (Hvne & _ & Hvdec).
  simpl in Hkfree, Hkdec, Hvne, Hvdec.
  rewrite fmap_cons. cbn [query.decode_tokens].
  replace (encoded_pair http_encode (key, value))
    with (http_encode key +:+ "=" +:+ http_encode value)
    by (unfold encoded_pair; simpl; by rewrite decide_True).
  rewrite split_pair.
  - rewrite Hkdec, Hvdec. apply IH.
  - revert Hkfree. apply free_of_weaken. intros c. simpl.
    repeat case_decide; done.
Qed.

(** Decoding the joined encoded pairs inserts them one after the other. *)
Lemma decode_encoded_pairs (pairs : list (string * string)) :
  Forall (λ pair, codable http_encode http_decode pair.1 ∧
                 codable http_encode http_decode pair.2) pairs →
  query.decode http_decode (stout.join "&" (encoded_pair http_encode <$> pairs))
  = Ok (list_to_map (reverse pairs)).
Proof.
  intros Hall. unfold query.decode. rewrite tokenize_join; [|done|].
  - rewrite decode_tokens_encoded by done. f_equal.
    by rewrite foldl_insert_list_to_map, (right_id_L ∅ (∪)).
  - rewrite Forall_fmap. eapply Forall_impl; [done|].
    intros [key value] [(_ & Hkfree & _) (Hvne & Hvfree & _)]. simpl in *.
    unfold encoded_pair. simpl. rewrite decide_True by done. split.
    + intros Hempty. by destruct (http_encode key).
    + rewrite !free_of_app, !andb_true_iff. split_and!; [|done|].
      * revert Hkfree. apply free_of_weaken. intros c. simpl.
        repeat case_decide; done.
      * revert Hvfree. apply free_of_weaken. intros c. simpl.
        repeat case_decide; done.
Qed.

(** Whatever the order of the visit, the pairs visited make the mapping. *)
Lemma visited_list_to_map (m : gmap string string) :
  foreachpair m ≡ₚ map_to_list m →
  list_to_map (reverse (foreachpair m)) = m.
Proof.
  intros Hvisit. rewrite <- (list_to_map_to_list m) at 2.
  apply list_to_map_proper.
  - rewrite reverse_Permutation, Hvisit. apply NoDup_fst_map_to_list.
  - by rewrite reverse_Permutation.
Qed.

Hypothesis foreachpair_visits : ∀ m, foreachpair m ≡ₚ map_to_list m.

(** C8: a mapping whose keys and values are not empty, whose encodings
    have none of [;], [&], [=], and which the percent codec gives back,
    is what [decode] makes of its [encode]. *)
Theorem query_roundtrip (m : gmap string string) :
  (∀ key value, m !! key = Some value → codable http_encode http_decode key ∧
     codable http_encode http_decode value) →
  query.decode http_decode (query.encode http_encode foreachpair m) = Ok m.
Proof.
  intros Hm. rewrite encode_join, decode_encoded_pairs.
  - f_equal. apply visited_list_to_map, foreachpair_visits.
  - apply Forall_forall. intros [key value] Hin. simpl.
    apply Hm. apply elem_of_map_to_list. by rewrite <- foreachpair_visits.
Qed.

End query_roundtrip.

(** ** The percent codec *)

Lemma percent_decode_encoded_char (whole : string) (c : ascii) (rest : string) :
  percent_decode_from whole (percent_encode_char c +:+ rest) =
    match percent_decode_from whole rest with
    | Ok out => Ok (String c out)
    | Error message => Error message
    end.
Proof. destruct c as [[] [] [] [] [] [] [] []]; reflexivity. Qed.

Lemma percent_decode_encode_from (whole s : string) :
  percent_decode_from whole (percent_encode s) = Ok s.
Proof.
  induction s as [|c s IH]; [done|].
  simpl. by rewrite percent_decode_encoded_char, IH.
Qed.

Lemma percent_decode_encode (s : string) :
  percent_decode (percent_encode s) = Ok s.
Proof. apply percent_decode_encode_from. Qed.

Lemma percent_encode_char_free (c : ascii) :
  free_of ";&=" (percent_encode_char c) = true.
Proof. destruct c as [[] [] [] [] [] [] [] []]; reflexivity. Qed.

Lemma percent_encode_free (s : string) :
  free_of ";&=" (percent_encode s) = true.
Proof.
  induction s as [|c s IH]; [done|].
  simpl. by rewrite free_of_app, percent_encode_char_free, IH.
Qed.

Lemma percent_codable (s : string) :
  s ≠ "" → codable percent_encode percent_decode s.
Proof.
  intros Hne. split; [done|].
  split; [apply percent_encode_free|apply percent_decode_encode].
Qed.

(** A key with a space and a value with delimiters in it. *)
Lemma query_roundtrip_witness :
  let m : gmap string string := {["a b" := "c=d&e"]} in
  (∀ key value, m !! key = Some value →
     codable percent_encode percent_decode key ∧
     codable percent_encode percent_decode value) ∧
  query.encode percent_encode map_to_list m = "a%20b=c%3Dd%26e" ∧
  query.decode percent_decode (query.encode percent_encode map_to_list m) = Ok m.
Proof.
  assert (Hm : ∀ key value,
            ({["a b" := "c=d&e"]} : gmap string string) !! key = Some value →
            codable percent_encode percent_decode key ∧
            codable percent_encode percent_decode value).
  { intros key value Hlookup.
    apply lookup_singleton_Some in Hlookup as [<- <-].
    split; (split; [discriminate|split; vm_compute; reflexivity]). }
  split; [exact Hm|]. split; [vm_compute; reflexivity|].
  exact (query_roundtrip percent_encode percent_decode map_to_list
           (λ m, reflexivity (map_to_list m)) _ Hm).
Defined.

(** With the percent codec every mapping with non-empty keys and values
    makes the round trip. *)
Corollary query_roundtrip_percent (m : gmap string string) :
  (∀ key value, m !! key = Some value → key ≠ "" ∧ value ≠ "") →
  query.decode percent_decode (query.encode percent_encode map_to_list m) = Ok m.
Proof.
  intros Hm. rewrite encode_join, decode_encoded_pairs.
  - f_equal. by apply visited_list_to_map.
  - apply Forall_forall. intros [key value] Hin%elem_of_map_to_list.
    destruct (Hm key value Hin). split; by apply percent_codable.
Qed.

(** * Further properties *)

(** ** The pipe: what the futures tell *)

Section pipe_futures.
Import Pipe.

Lemma accounted_fresh : accounted fresh.
Proof. split; simpl; try done. Qed.

Lemma accounted_read (w : World) : accounted w → accounted (Reader.read w).2.
Proof.
  destruct w as [[re we ws rs rc] fs tr]. intros [Hpen Hfail Heof Hbuf].
  simpl in *. unfold Reader.read, new_future, with_data. simpl.
  assert (Hnew : ∀ (f : Future string) i g,
            (fs ++ [f]) !! i = Some g → fs !! i = Some g ∨ g = f).
  { intros f i g Hi. apply lookup_app_Some in Hi as [Hi|[_ Hi]]; [by left|].
    right. destruct (i - length fs); simplify_eq/=; done. }
  assert (Hold : ∀ f, f ≠ PENDING →
            (∀ message, f = FAILED message → message = "closed" ∧ re = CLOSED) →
            (f = READY "" → we = CLOSED) →
            ∀ ws', Forall (λ s, s ≠ "") ws' →
            accounted {| data := {| readEnd := re; writeEnd := we; writes := ws';
                                    reads := rs; readerClosure := rc |};
                         futures := fs ++ [f]; trace := tr |}).
  { intros f Hf Hfailed Hempty ws' Hws'. split; simpl; [| | |done].
    - intros i Hi. apply Hnew in Hi as [Hi|Hi]; [by apply Hpen|done].
    - intros i message Hi. apply Hnew in Hi as [Hi|Hi]; [by eapply Hfail|].
      by apply Hfailed.
    - intros i Hi. apply Hnew in Hi as [Hi|Hi]; [by eapply Heof|].
      by apply Hempty. }
  destruct (decide (re = CLOSED)) as [Hre|Hre]; simpl.
  { apply Hold; [done| |done|done]. by intros message [= <-]. }
  destruct ws as [|front rest]; simpl.
  - destruct (decide (we = CLOSED)) as [Hwe|Hwe]; simpl.
    { by apply Hold. }
    split; simpl; [| | |done].
    + intros i Hi. apply lookup_app_Some in Hi as [Hi|[Hge Hi]].
      * apply elem_of_app. left. by apply Hpen.
      * apply elem_of_app. right. apply list_elem_of_singleton.
        apply lookup_lt_Some in Hi. simpl in Hi. lia.
    + intros i message Hi. apply Hnew in Hi as [Hi|Hi]; [by eapply Hfail|done].
    + intros i Hi. apply Hnew in Hi as [Hi|Hi]; [by eapply Heof|done].
  - apply Forall_cons in Hbuf as [Hfront Hrest].
    apply Hold; [done|done| |done]. by intros [= ->].
Qed.

Lemma accounted_write (s : string) (w : World) :
  accounted w → accounted (Writer.write s w).2.
Proof.
  destruct w as [[re we ws rs rc] fs tr]. intros [Hpen Hfail Heof Hbuf].
  simpl in *. unfold Writer.write, with_data. simpl.
  destruct (decide (we = OPEN ∧ re = OPEN)) as [[-> ->]|Hopen]; simpl; [|by split].
  destruct (decide (s ≠ "")) as [Hs|Hs]; simpl; [|by split].
  destruct rs as [|front rest]; simpl.
  - split; simpl; try done. apply Forall_app. by repeat constructor.
  - split; simpl; try done.
    + intros i. rewrite complete_lookup. simpl. intros Hi.
      destruct (fs !! i) as [[| |]|] eqn:Hfs; try done.
      destruct (decide (i = front)); [done|].
      specialize (Hpen i Hfs). apply elem_of_cons in Hpen as [?|?]; done.
    + intros i message. rewrite complete_lookup. simpl. intros Hi.
      destruct (fs !! i) as [[| |]|] eqn:Hfs; simplify_eq; [|by eapply Hfail].
      by destruct (decide (i = front)).
    + intros i. rewrite complete_lookup. simpl. intros Hi.
      destruct (fs !! i) as [[| |]|] eqn:Hfs; simplify_eq; [|by eapply Heof].
      destruct (decide (i = front)); by simplify_eq.
Qed.

Lemma accounted_reader_close (w : World) :
  accounted w → accounted (Reader.close w).2.
Proof.
  destruct w as [[re we ws rs rc] fs tr]. intros [Hpen Hfail Heof Hbuf].
  simpl in *. unfold Reader.close, with_data. simpl.
  destruct (decide (re = OPEN)) as [Hre|Hre]; simpl; [|by split].
  rewrite complete_all_fail.
  assert (Hfutures : ∀ w', futures (if bool_decide (we = OPEN)
                                    then readerClosure_set w' else w')
                           = futures w') by (by intros; case_bool_decide).
  assert (Hdata : ∀ w',
            readEnd (data w') = CLOSED → writeEnd (data w') = we →
            writes (data w') = [] →
            let w'' := if bool_decide (we = OPEN)
                       then readerClosure_set w' else w' in
            readEnd (data w'') = CLOSED ∧ writeEnd (data w'') = we ∧
            writes (data w'') = [] ∧ reads (data w'') = reads (data w'))
    by (by intros; case_bool_decide).
  match goal with |- accounted (if _ then readerClosure_set ?w0 else _) =>
    set (w' := w0) end.
  destruct (Hdata w') as (Hre' & Hwe' & Hws' & Hrs');
    [unfold w'; by rewrite complete_all_data..|].
  split; rewrite ?Hfutures, ?Hre', ?Hwe', ?Hws', ?Hrs'; unfold w';
    rewrite ?complete_all_data; simpl; try done.
  - intros i. rewrite complete_all_lookup by done. simpl. intros Hi.
    destruct (fs !! i) as [[| |]|] eqn:Hfs; try done.
    destruct (decide (i ∈ rs)); [done|]. by specialize (Hpen i Hfs).
  - intros i message. rewrite complete_all_lookup by done. simpl. intros Hi.
    destruct (fs !! i) as [[| |]|] eqn:Hfs; simplify_eq.
    + destruct (decide (i ∈ rs)); by simplify_eq.
    + split; [|done]. by eapply Hfail.
  - intros i. rewrite complete_all_lookup by done. simpl. intros Hi.
    destruct (fs !! i) as [[| |]|] eqn:Hfs; simplify_eq; [|by eapply Heof].
    by destruct (decide (i ∈ rs)).
Qed.

Lemma accounted_writer_close (w : World) :
  accounted w → accounted (Writer.close w).2.
Proof.
  destruct w as [[re we ws rs rc] fs tr]. intros [Hpen Hfail Heof Hbuf].
  simpl in *. unfold Writer.close, with_data. simpl.
  destruct (decide (we = OPEN)) as [Hwe|Hwe]; simpl; [|by split].
  rewrite complete_all_set.
  split; rewrite ?complete_all_data; simpl; try done.
  - intros i. rewrite complete_all_lookup by done. simpl. intros Hi.
    destruct (fs !! i) as [[| |]|] eqn:Hfs; try done.
    destruct (decide (i ∈ rs)); [done|]. by specialize (Hpen i Hfs).
  - intros i message. rewrite complete_all_lookup by done. simpl. intros Hi.
    destruct (fs !! i) as [[| |]|] eqn:Hfs; simplify_eq; [|by eapply Hfail].
    by destruct (decide (i ∈ rs)).
Qed.

Lemma accounted_step (c : Call) (w : World) : accounted w → accounted (step w c).2.
Proof.
  intros Hacc. destruct c as [|s| |]; simpl.
  - pose proof (accounted_read w Hacc). by destruct (Reader.read w).
  - pose proof (accounted_write s w Hacc). by destruct (Writer.write s w).
  - pose proof (accounted_reader_close w Hacc). by destruct (Reader.close w).
  - pose proof (accounted_writer_close w Hacc). by destruct (Writer.close w).
Qed.

Lemma accounted_run (calls : list Call) : accounted (run calls fresh).2.
Proof.
  apply (run_invariant accounted); [|apply accounted_fresh].
  intros w c. apply accounted_step.
Qed.

(** X1: after every execution, a closed read end has left nothing
    buffered and no read waiting, and a closed write end has left no read
    waiting. *)
Theorem closed_end_queues (calls : list Call) :
  let w := (run calls fresh).2 in
  (readEnd (data w) = CLOSED → writes (data w) = [] ∧ reads (data w) = []) ∧
  (writeEnd (data w) = CLOSED → reads (data w) = []).
Proof.
  simpl. pose proof (wf_run calls fresh wf_fresh) as Hwf.
  split; [apply (wf_read_closed _ Hwf)|apply (wf_write_closed _ Hwf)].
Qed.

Lemma closed_end_queues_witness :
  let w := (run [write "a"; read; read; writer_close; reader_close] fresh).2 in
  writes (data w) = [] ∧ reads (data w) = [].
Proof.
  exact (proj1 (closed_end_queues
                  [write "a"; read; read; writer_close; reader_close]) eq_refl).
Defined.

(** X2: once an end is closed, no future handed out is pending: every read
    has its answer. *)
Theorem no_pending_after_close (calls : list Call) (i : nat) :
  let w := (run calls fresh).2 in
  readEnd (data w) = CLOSED ∨ writeEnd (data w) = CLOSED →
  futures w !! i ≠ Some PENDING.
Proof.
  simpl. intros Hclosed Hi.
  pose proof (wf_run calls fresh wf_fresh) as Hwf.
  apply (accounted_pending _ (accounted_run calls)) in Hi.
  destruct Hclosed as [Hre|Hwe].
  - destruct (wf_read_closed _ Hwf Hre) as [_ Hrs]. rewrite Hrs in Hi.
    by apply elem_of_nil in Hi.
  - rewrite (wf_write_closed _ Hwf Hwe) in Hi. by apply elem_of_nil in Hi.
Qed.

Lemma no_pending_after_close_witness :
  let w := (run [read; read; writer_close] fresh).2 in
  (readEnd (data w) = CLOSED ∨ writeEnd (data w) = CLOSED) ∧
  futures w !! 1 ≠ Some PENDING.
Proof.
  split; [right; reflexivity|].
  apply (no_pending_after_close [read; read; writer_close] 1).
  right; reflexivity.
Defined.

Lemma step_completed_stable (w : World) (c : Call) (i : nat) (f : Future string) :
  futures w !! i = Some f → f ≠ PENDING → futures (step w c).2 !! i = Some f.
Proof.
  destruct w as [[re we ws rs rc] fs tr]. simpl. intros Hi Hf.
  destruct c as [|s| |]; pipe_cases;
    rewrite ?complete_all_lookup by done; simpl;
    rewrite ?complete_lookup; simpl; rewrite ?Hi;
    try (by apply lookup_app_l_Some); by destruct f.
Qed.

(** X3: a future that is ready or has failed stays as it is, whatever is
    called next. *)
Theorem completed_future_stable (calls : list Call) (w : World) (i : nat)
    (f : Future string) :
  futures w !! i = Some f → f ≠ PENDING →
  futures (run calls w).2 !! i = Some f.
Proof.
  revert w. induction calls as [|c calls IH]; intros w Hi Hf; [done|].
  rewrite run_cons. cbn [snd]. apply IH; [|done].
  by apply step_completed_stable.
Qed.

Lemma completed_future_stable_witness :
  let w := (run [write "a"; read] fresh).2 in
  futures w !! 0 = Some (READY "a") ∧
  futures (run [write "b"; read; reader_close; writer_close; read] w).2 !! 0
    = Some (READY "a").
Proof.
  split; [reflexivity|].
  apply (completed_future_stable
           [write "b"; read; reader_close; writer_close; read]
           (run [write "a"; read] fresh).2 0 (READY "a"));
    [reflexivity|discriminate].
Defined.

(** X4: a future handed out by a read fails only with [closed], and only
    when the read end is closed. *)
Theorem failure_is_closed (calls : list Call) (i : nat) (message : string) :
  let w := (run calls fresh).2 in
  futures w !! i = Some (FAILED message) →
  message = "closed" ∧ readEnd (data w) = CLOSED.
Proof. simpl. apply (accounted_failed _ (accounted_run calls)). Qed.

Lemma failure_is_closed_witness :
  let w := (run [read; reader_close; read] fresh).2 in
  futures w !! 1 = Some (FAILED "closed") ∧ readEnd (data w) = CLOSED.
Proof.
  split; [reflexivity|].
  apply (failure_is_closed [read; reader_close; read] 1 "closed"). reflexivity.
Defined.

(** X5: a future holds the empty chunk only when the write end is closed:
    the empty chunk always means the end of the stream. *)
Theorem empty_chunk_is_eof (calls : list Call) (i : nat) :
  let w := (run calls fresh).2 in
  futures w !! i = Some (READY "") → writeEnd (data w) = CLOSED.
Proof. simpl. apply (accounted_eof _ (accounted_run calls)). Qed.

Lemma empty_chunk_is_eof_witness :
  let w := (run [write ""; read; writer_close; read] fresh).2 in
  futures w !! 0 = Some (READY "") ∧ writeEnd (data w) = CLOSED.
Proof.
  split; [reflexivity|].
  apply (empty_chunk_is_eof [write ""; read; writer_close; read] 0). reflexivity.
Defined.

Lemma write_empty_world (w : World) : (Writer.write "" w).2 = w.
Proof.
  unfold Writer.write. destruct (decide _); simpl; by rewrite with_data_id.
Qed.

(** X6: the writes of the empty chunk leave no mark: an execution ends in
    the state in which it ends without them. *)
Theorem empty_writes_invisible (calls : list Call) (w : World) :
  (run (filter (λ c, surfaced c = true) calls) w).2 = (run calls w).2.
Proof.
  revert w. induction calls as [|c calls IH]; intros w; [done|].
  destruct (surfaced c) eqn:Hc.
  - rewrite filter_cons_True by exact Hc. rewrite !run_cons. cbn [snd]. apply IH.
  - rewrite filter_cons_False by (simpl; congruence). rewrite run_cons. cbn [snd].
    destruct c as [|[|? ?]| |]; try done.
    assert ((step w (write "")).2 = w) as ->; [|apply IH].
    pose proof (write_empty_world w) as Hw. simpl.
    by destruct (Writer.write "" w).
Qed.

Lemma take_pad {A} (n : nat) (l : list A) (x : A) :
  take n (l ++ replicate (S n) x) = take n (l ++ replicate n x).
Proof.
  rewrite replicate_S_end, app_assoc, take_app_le; [done|].
  rewrite length_app, length_replicate. lia.
Qed.

(** X7: when the write end is closed and the read end is open, the next
    reads get the buffered chunks in order, and the empty chunk from then
    on. *)
Theorem drain_then_eof (n : nat) (w : World) :
  writeEnd (data w) = CLOSED → readEnd (data w) = OPEN →
  futures (run (replicate n read) w).2 =
    futures w ++ (READY <$> take n (writes (data w) ++ replicate n "")).
Proof.
  revert w. induction n as [|n IH]; intros w Hwe Hre.
  { simpl. by rewrite app_nil_r. }
  cbn [replicate]. rewrite run_cons. cbn [snd].
  destruct w as [[re we ws rs rc] fs tr]. simpl in Hwe, Hre. subst re we.
  destruct ws as [|front rest].
  - assert (Hstep : (step {| data := {| readEnd := OPEN; writeEnd := CLOSED;
                                         writes := []; reads := rs;
                                         readerClosure := rc |};
                              futures := fs; trace := tr |} read).2
                    = {| data := {| readEnd := OPEN; writeEnd := CLOSED;
                                    writes := []; reads := rs;
                                    readerClosure := rc |};
                         futures := fs ++ [READY ""]; trace := tr |}) by done.
    rewrite Hstep, IH by done. simpl.
    by rewrite <- app_assoc.
  - assert (Hstep : (step {| data := {| readEnd := OPEN; writeEnd := CLOSED;
                                         writes := front :: rest; reads := rs;
                                         readerClosure := rc |};
                              futures := fs; trace := tr |} read).2
                    = {| data := {| readEnd := OPEN; writeEnd := CLOSED;
                                    writes := rest; reads := rs;
                                    readerClosure := rc |};
                         futures := fs ++ [READY front]; trace := tr |}) by done.
    rewrite Hstep, IH by done. simpl.
    rewrite <- app_assoc. simpl.
    change ("" :: replicate n "") with (replicate (S n) "").
    by rewrite take_pad.
Qed.

Lemma drain_then_eof_witness :
  let w := (run [write "a"; write "b"; writer_close] fresh).2 in
  writeEnd (data w) = CLOSED ∧ readEnd (data w) = OPEN ∧
  futures (run (replicate 4 read) w).2
    = [READY "a"; READY "b"; READY ""; READY ""].
Proof.
  split; [reflexivity|]. split; [reflexivity|].
  exact (drain_then_eof 4 (run [write "a"; write "b"; writer_close] fresh).2
           eq_refl eq_refl).
Defined.

(** X8: once the read end is closed, [Reader::close] returns false and
    changes nothing, whatever was called in between. *)
Theorem reader_close_idempotent (calls : list Call) (w : World) :
  readEnd (data w) = CLOSED →
  Reader.close (run calls w).2 = (false, (run calls w).2).
Proof.
  intros Hre. apply (read_end_stays_closed calls) in Hre.
  unfold Reader.close. rewrite decide_False by congruence.
  simpl. by rewrite with_data_id.
Qed.

Lemma reader_close_idempotent_witness :
  let w := (Reader.close (run [read; write "a"] fresh).2).2 in
  readEnd (data w) = CLOSED ∧
  Reader.close (run [write "b"; read; writer_close] w).2
    = (false, (run [write "b"; read; writer_close] w).2).
Proof.
  split; [reflexivity|].
  apply (reader_close_idempotent [write "b"; read; writer_close]). reflexivity.
Defined.

End pipe_futures.

(** ** Content negotiation: blanks *)

Lemma chars_inj (s s' : string) : chars s = chars s' → s = s'.
Proof.
  unfold chars. intros Heq.
  by rewrite <- (string_of_list_ascii_of_string s),
             <- (string_of_list_ascii_of_string s'), Heq.
Qed.

Lemma normalized_blank (accepted : string) :
  chars (Request.normalized accepted)
  = filter (λ c, blank c = false) (chars accepted).
Proof.
  rewrite normalized_chars. induction (chars accepted) as [|c cs IH]; [done|].
  destruct (decide (c = " "%char)) as [->|Hs].
  { rewrite (filter_cons_False (λ x, x ≠ " "%char)) by (by intros ?).
    rewrite (filter_cons_False (λ c, blank c = false)) by done. apply IH. }
  rewrite (filter_cons_True (λ x, x ≠ " "%char)) by done.
  destruct (decide (c = "009"%char)) as [->|Ht].
  { rewrite (filter_cons_False (λ x, x ≠ "009"%char)) by (by intros ?).
    rewrite (filter_cons_False (λ c, blank c = false)) by done. apply IH. }
  rewrite (filter_cons_True (λ x, x ≠ "009"%char)) by done.
  destruct (decide (c = "010"%char)) as [->|Hn].
  { rewrite (filter_cons_False (λ x, x ≠ "010"%char)) by (by intros ?).
    rewrite (filter_cons_False (λ c, blank c = false)) by done. apply IH. }
  rewrite (filter_cons_True (λ x, x ≠ "010"%char)) by done.
  rewrite (filter_cons_True (λ c, blank c = false)).
  - by rewrite IH.
  - unfold blank. by rewrite !bool_decide_false by done.
Qed.

Section accepts_blanks.
Context {double : Type}.
Variable numify : string → option double.
Variable positive : double → bool.

(** X9: spaces, tabs and newlines in the header do not count: two
    requests whose [Accept-Encoding] values have the same other characters
    in the same order get the same answer. *)
Theorem accepts_ignores_blanks (request request' : Request.Request)
    (accepted accepted' encoding : string) :
  Request.headers request !! "Accept-Encoding" = Some accepted →
  Request.headers request' !! "Accept-Encoding" = Some accepted' →
  filter (λ c, blank c = false) (chars accepted)
    = filter (λ c, blank c = false) (chars accepted') →
  Request.accepts numify positive request encoding
    = Request.accepts numify positive request' encoding.
Proof.
  intros Hh Hh' Hsame. unfold Request.accepts. rewrite Hh, Hh'.
  fold (Request.normalized accepted). fold (Request.normalized accepted').
  assert (Request.normalized accepted = Request.normalized accepted') as ->; [|done].
  apply chars_inj. by rewrite !normalized_blank.
Qed.

End accepts_blanks.

Lemma accepts_ignores_blanks_witness :
  Request.accepts numify_decimal Q_positive
    (with_accept_encoding (Some "deflate , gzip ; q = 0.5")) "gzip"
  = Request.accepts numify_decimal Q_positive
      (with_accept_encoding (Some "deflate,gzip;q=0.5")) "gzip".
Proof.
  apply (accepts_ignores_blanks numify_decimal Q_positive
           (with_accept_encoding (Some "deflate , gzip ; q = 0.5"))
           (with_accept_encoding (Some "deflate,gzip;q=0.5"))
           "deflate , gzip ; q = 0.5" "deflate,gzip;q=0.5" "gzip");
    reflexivity.
Defined.

(** ** The query codec: separators, composition, empty values *)

Lemma tokenize_from_app_delim (delims : string) (d : ascii) (q1 q2 cur : string) :
  stout.contains d delims = true →
  stout.tokenize_from delims (q1 +:+ String d q2) cur
  = stout.tokenize_from delims q1 cur ++ stout.tokenize_from delims q2 "".
Proof.
  intros Hd. revert cur. induction q1 as [|c q1 IH]; intros cur.
  - rewrite string_app_nil_l. simpl. rewrite Hd. by destruct (decide (cur = "")).
  - rewrite string_app_cons. simpl.
    destruct (stout.contains c delims); [|apply IH].
    destruct (decide (cur = "")); by rewrite IH.
Qed.

Section query_composition.
Variable http_encode : string → string.
Variable http_decode : string → Try string.
Variable foreachpair : gmap string string → list (string * string).

(** X10: [;] and [&] separate the pairs of a query alike. *)
Theorem decode_separators_alike (q1 q2 : string) :
  query.decode http_decode (q1 +:+ ";" +:+ q2)
  = query.decode http_decode (q1 +:+ "&" +:+ q2).
Proof.
  unfold query.decode, stout.tokenize.
  by rewrite !string_app_cons, !string_app_nil_l, !tokenize_from_app_delim.
Qed.

Lemma decode_tokens_app (tokens1 tokens2 : list string)
    (result : gmap string string) :
  query.decode_tokens http_decode (tokens1 ++ tokens2) result
  = match query.decode_tokens http_decode tokens1 result with
    | Error message => Error message
    | Ok result' => query.decode_tokens http_decode tokens2 result'
    end.
Proof.
  revert result. induction tokens1 as [|token tokens1 IH]; intros result; [done|].
  rewrite <- app_comm_cons. cbn [query.decode_tokens].
  destruct (stout.split token "=" (Some 2)) as [|p0 [|p1 [|p2 ps]]]; [apply IH|..];
    destruct (http_decode p0); try done; try apply IH.
  destruct (http_decode p1); [done|apply IH].
Qed.

Lemma decode_tokens_union (tokens : list string) (result : gmap string string) :
  query.decode_tokens http_decode tokens result
  = match query.decode_tokens http_decode tokens ∅ with
    | Error message => Error message
    | Ok decoded => Ok (decoded ∪ result)
    end.
Proof.
  assert (Hins : ∀ tokens' key value result,
    (∀ result, query.decode_tokens http_decode tokens' result
       = match query.decode_tokens http_decode tokens' ∅ with
         | Error message => Error message
         | Ok decoded => Ok (decoded ∪ result)
         end) →
    query.decode_tokens http_decode tokens' (<[key := value]> result)
    = match query.decode_tokens http_decode tokens' (<[key := value]> ∅) with
      | Error message => Error message
      | Ok decoded => Ok (decoded ∪ result)
      end).
  { clear result. intros tokens' key value result IH.
    rewrite (IH (<[key := value]> result)), (IH (<[key := value]> ∅)).
    destruct (query.decode_tokens http_decode tokens' ∅) as [|decoded]; [done|].
    f_equal. rewrite insert_empty, (insert_union_singleton_l result).
    by rewrite (assoc_L (∪)). }
  revert result. induction tokens as [|token tokens IH]; intros result.
  - simpl. by rewrite (left_id_L ∅ (∪)).
  - cbn [query.decode_tokens].
    destruct (stout.split token "=" (Some 2)) as [|p0 [|p1 [|p2 ps]]]; [apply IH|..];
      destruct (http_decode p0); try done; try apply IH; try by apply Hins.
    destruct (http_decode p1); [done|by apply Hins].
Qed.

(** X11: decoding two queries joined by [&] decodes the first, then the
    second on top of it: the first error is the error, and a key of the
    second query overrides the same key of the first. *)
Theorem decode_composes (q1 q2 : string) :
  query.decode http_decode (q1 +:+ "&" +:+ q2)
  = match query.decode http_decode q1 with
    | Error message => Error message
    | Ok first =>
        match query.decode http_decode q2 with
        | Error message => Error message
        | Ok second => Ok (second ∪ first)
        end
    end.
Proof.
  unfold query.decode, stout.tokenize.
  rewrite string_app_cons, string_app_nil_l, tokenize_from_app_delim by done.
  rewrite decode_tokens_app.
  destruct (query.decode_tokens http_decode _ ∅) as [|first]; [done|].
  apply decode_tokens_union.
Qed.

Lemma split_single (token : string) :
  free_of "=" token = true → stout.split token "=" (Some 2) = [token].
Proof.
  intros Hfree. unfold stout.split.
  rewrite <- (string_app_nil_r token) at 1.
  by rewrite split_from_free by done.
Qed.

Lemma free_of_pair_delims (s : string) :
  free_of ";&=" s = true → free_of ";&" s = true ∧ free_of "=" s = true.
Proof.
  intros Hfree. split; revert Hfree; apply free_of_weaken; intros c; simpl;
    repeat case_decide; done.
Qed.

Lemma decode_tokens_pairs (pairs : list (string * string))
    (result : gmap string string) :
  Forall (codable_pair http_encode http_decode) pairs →
  query.decode_tokens http_decode (encoded_pair http_encode <$> pairs) result
  = Ok (foldl (λ result pair, <[pair.1 := pair.2]> result) result pairs).
Proof.
  intros Hall. revert result.
  induction Hall as [|[key value] pairs Hpair Hall IH]; intros result; [done|].
  destruct Hpair as ((_ & Hkfree & Hkdec) & _ & Hvalue).
  simpl in Hkfree, Hkdec, Hvalue.
  apply free_of_pair_delims in Hkfree as [_ Hkfree].
  rewrite fmap_cons. cbn [query.decode_tokens].
  destruct Hvalue as [->|(Hvne & _ & Hvdec)].
  - replace (encoded_pair http_encode (key, ""))
      with (http_encode key)
      by (unfold encoded_pair; simpl; by rewrite string_app_nil_r).
    rewrite split_single by done. rewrite Hkdec. apply IH.
  - replace (encoded_pair http_encode (key, value))
      with (http_encode key +:+ "=" +:+ http_encode value)
      by (unfold encoded_pair; simpl; by rewrite decide_True).
    rewrite split_pair by done. rewrite Hkdec, Hvdec. apply IH.
Qed.

Lemma encoded_pair_token (pair : string * string) :
  codable_pair http_encode http_decode pair →
  encoded_pair http_encode pair ≠ "" ∧
  free_of ";&" (encoded_pair http_encode pair) = true.
Proof.
  destruct pair as [key value].
  intros ((_ & Hkfree & _) & Hkne & Hvalue). simpl in *.
  apply free_of_pair_delims in Hkfree as [Hkfree _].
  unfold encoded_pair. simpl. split.
  - intros Hempty. destruct (http_encode key); [done|].
    by rewrite string_app_cons in Hempty.
  - rewrite free_of_app, Hkfree. simpl.
    destruct Hvalue as [->|(Hvne & Hvfree & _)]; [done|].
    rewrite decide_True by done.
    apply free_of_pair_delims in Hvfree as [Hvfree _].
    by rewrite free_of_app, Hvfree.
Qed.

(** Decoding the joined pairs inserts them one after the other. *)
Lemma decode_joined_pairs (pairs : list (string * string)) :
  Forall (codable_pair http_encode http_decode) pairs →
  query.decode http_decode (stout.join "&" (encoded_pair http_encode <$> pairs))
  = Ok (list_to_map (reverse pairs)).
Proof.
  intros Hall. unfold query.decode. rewrite tokenize_join; [|done|].
  - rewrite decode_tokens_pairs by done. f_equal.
    by rewrite foldl_insert_list_to_map, (right_id_L ∅ (∪)).
  - rewrite Forall_fmap. eapply Forall_impl; [done|].
    intros pair Hpair. by apply encoded_pair_token.
Qed.

(** X12: the round trip of the query codec also holds with empty values:
    a pair with an empty value is written as its key alone and read back
    with the empty value. *)
Theorem query_roundtrip_empty_values (m : gmap string string) :
  (∀ visited, foreachpair visited ≡ₚ map_to_list visited) →
  (∀ key value, m !! key = Some value →
     codable_pair http_encode http_decode (key, value)) →
  query.decode http_decode (query.encode http_encode foreachpair m) = Ok m.
Proof.
  intros Hvisits Hm. rewrite encode_join, decode_joined_pairs.
  - f_equal. by apply visited_list_to_map.
  - apply Forall_forall. intros [key value] Hin.
    apply Hm. apply elem_of_map_to_list. by rewrite <- Hvisits.
Qed.

End query_composition.

(** A flag without a value beside a pair with one. *)
Lemma query_roundtrip_empty_values_witness :
  let m : gmap string string := <["flag" := ""]> {["a b" := "c"]} in
  query.encode percent_encode map_to_list m = "a%20b=c&flag" ∧
  query.decode percent_decode (query.encode percent_encode map_to_list m) = Ok m.
Proof.
  split; [vm_compute; reflexivity|].
  apply (query_roundtrip_empty_values percent_encode percent_decode map_to_list);
    [reflexivity|].
  intros key value Hlookup.
  apply lookup_insert_Some in Hlookup as [[<- <-]|[_ Hlookup]].
  - split; [|split; [discriminate|by left]].
    split; [discriminate|split; vm_compute; reflexivity].
  - apply lookup_singleton_Some in Hlookup as [<- <-].
    split; [|split; [discriminate|right]];
      (split; [discriminate|split; vm_compute; reflexivity]).
Defined.

(** ** The request pipeline *)

Lemma then_ready {A B} (f : Future A) (k : A → Future B) (b : B) :
  then_ f k = READY b ↔ ∃ a, f = READY a ∧ k a = READY b.
Proof.
  destruct f as [|a|message]; simpl.
  - split; [done|]. by intros (a & ? & _).
  - split; [by exists a|]. by intros (a' & [= <-] & ?).
  - split; [done|]. by intros (a & ? & _).
Qed.

Lemma then_failed {A B} (f : Future A) (k : A → Future B) (message : string) :
  then_ f k = FAILED message ↔
  f = FAILED message ∨ ∃ a, f = READY a ∧ k a = FAILED message.
Proof.
  destruct f as [|a|message']; simpl.
  - split; [done|]. by intros [|(a & ? & _)].
  - split; [right; by exists a|]. by intros [|(a' & [= <-] & ?)].
  - split; [intros [= ->]; by left|]. by intros [[= ->]|(a & ? & _)].
Qed.

Section pipeline.
Context {Response Socket : Type}.
Variable decoder : string → bool * list Response.
Variable create : Try Socket.
Variable getIP : string → Try N.
Variable connect : Socket → Address.Address → Future unit.
Variable send : Socket → string → Future nat.
Variable recv : Socket → option Z → Future string.
Variable stringify : Address.Address → string.
Variable foreachpair : gmap string string → list (string * string).
Variable http_encode : string → string.
Variable http_decode : string → Try string.

Lemma decode_ready (buffer : string) (response : Response) :
  (internal.decode decoder buffer).1 = READY response ↔
  (decoder buffer).1 = false ∧ head (decoder buffer).2 = Some response.
Proof.
  unfold internal.decode. destruct (decoder buffer) as [failed responses].
  destruct failed, responses as [|first rest]; simpl;
    (split; [by intros [= <-]|by intros [? [= <-]]]) || (split; [done|by intros []]).
Qed.

(** What it takes for the part of the pipeline after the address is
    known to answer. *)
Lemma connected_ready (socket : Socket) (address : Address.Address)
    (url : URL.URL) (method : string) (headers : option (gmap string string))
    (body contentType : option string) (response : Response) :
  then_ (connect socket address)
    (λ _, internal._request decoder (send socket) (recv socket) stringify
            foreachpair address url method headers body contentType)
  = READY response ↔
  connect socket address = READY () ∧
  ∃ n buffer,
    send socket (internal._request_out stringify foreachpair address url
                   method headers body contentType) = READY n ∧
    recv socket (Some (-1)%Z) = READY buffer ∧
    (decoder buffer).1 = false ∧ head (decoder buffer).2 = Some response.
Proof.
  unfold internal._request. rewrite then_ready. split.
  - intros ([] & Hconnect & Hrest).
    apply then_ready in Hrest as (n & Hsend & Hrest).
    apply then_ready in Hrest as (buffer & Hrecv & Hdecode).
    apply decode_ready in Hdecode. eauto 10.
  - intros (Hconnect & n & buffer & Hsend & Hrecv & Hdecode).
    exists (). split; [done|]. apply then_ready. exists n. split; [done|].
    apply then_ready. exists buffer. split; [done|]. by apply decode_ready.
Qed.

(** X13: [request] answers with a response exactly when the scheme is
    [http], the socket is created, the address is known, and connecting,
    sending the rendered request, receiving and parsing all succeed; the
    response is the first one that the parser finds in what was
    received. *)
Theorem request_succeeds_iff (url : URL.URL) (method : string)
    (headers : option (gmap string string))
    (body contentType : option string) (response : Response) :
  http.request decoder create getIP connect send recv stringify foreachpair
    url method headers body contentType = READY response ↔
  URL.scheme url = "http" ∧
  ∃ socket ip n buffer,
    create = Ok socket ∧ resolved getIP url ip ∧
    connect socket {| Address.ip := ip; Address.port := URL.port url |}
      = READY () ∧
    send socket
      (internal._request_out stringify foreachpair
         {| Address.ip := ip; Address.port := URL.port url |} url method
         headers body contentType) = READY n ∧
    recv socket (Some (-1)%Z) = READY buffer ∧
    (decoder buffer).1 = false ∧ head (decoder buffer).2 = Some response.
Proof.
  unfold http.request, resolved.
  destruct (decide (URL.scheme url ≠ "http")) as [Hscheme|Hscheme].
  { split; [done|]. by intros [? _]. }
  apply dec_stable in Hscheme.
  destruct create as [message|socket].
  { split; [done|]. by intros (_ & ? & ? & ? & ? & ? & _). }
  assert (Hconnected : ∀ ip,
    then_ (connect socket {| Address.ip := ip; Address.port := URL.port url |})
      (λ _, internal._request decoder (send socket) (recv socket) stringify
              foreachpair {| Address.ip := ip; Address.port := URL.port url |}
              url method headers body contentType) = READY response ↔
    ∃ n buffer,
      connect socket {| Address.ip := ip; Address.port := URL.port url |}
        = READY () ∧
      send socket
        (internal._request_out stringify foreachpair
           {| Address.ip := ip; Address.port := URL.port url |} url method
           headers body contentType) = READY n ∧
      recv socket (Some (-1)%Z) = READY buffer ∧
      (decoder buffer).1 = false ∧ head (decoder buffer).2 = Some response).
  { intros ip. rewrite connected_ready. split.
    - intros (Hconnect & n & buffer & Hrest). by exists n, buffer.
    - intros (n & buffer & Hconnect & Hrest). split; [done|]. by exists n, buffer. }
  destruct (URL.ip url) as [ip|].
  { rewrite Hconnected. split.
    - intros (n & buffer & Hconnect & Hrest). split; [done|].
      exists socket, ip, n, buffer. split; [done|]. split; [by left|done].
    - intros (_ & socket' & ip' & n & buffer & [= <-] & [[= <-]|[? _]] & ?);
        [|done]. by exists n, buffer. }
  destruct (URL.domain url) as [domain|].
  2: { split; [done|].
       intros (_ & ? & ? & ? & ? & _ & [?|(_ & ? & ? & _)] & _); done. }
  destruct (getIP domain) as [message|ip] eqn:Hip.
  { split; [done|].
    intros (_ & ? & ? & ? & ? & _ & [?|(_ & ? & [= <-] & ?)] & _);
      [done|congruence]. }
  rewrite Hconnected. split.
  - intros (n & buffer & Hconnect & Hrest). split; [done|].
    exists socket, ip, n, buffer.
    split; [done|]. split; [|done]. right. split; [done|]. by exists domain.
  - intros (_ & socket' & ip' & n & buffer & [= <-] &
            [?|(_ & ? & [= <-] & Hip')] & ?); [done|].
    rewrite Hip in Hip'. injection Hip' as <-. by exists n, buffer.
Qed.

Lemma decode_failed_iff (buffer message : string) :
  (internal.decode decoder buffer).1 = FAILED message ↔
  ((decoder buffer).1 = true ∨ (decoder buffer).2 = []) ∧
  message = "Failed to decode HTTP response:" +:+ LF +:+ buffer +:+ LF.
Proof.
  unfold internal.decode. destruct (decoder buffer) as [failed responses].
  destruct failed, responses as [|first rest]; simpl; split;
    try (intros [= <-]; split; [by (left + right)|done]);
    try (by intros [_ ->]); try done; by intros [[|] _].
Qed.

Lemma connected_failed (socket : Socket) (address : Address.Address)
    (url : URL.URL) (method : string) (headers : option (gmap string string))
    (body contentType : option string) (message : string) :
  then_ (connect socket address)
    (λ _, internal._request decoder (send socket) (recv socket) stringify
            foreachpair address url method headers body contentType)
  = FAILED message ↔
  fails_connected decoder connect send recv socket address
    (internal._request_out stringify foreachpair address url method headers
       body contentType) message.
Proof.
  unfold internal._request, fails_connected. rewrite then_failed. split.
  - intros [Hconnect|([] & Hconnect & Hrest)]; [by left|].
    right. split; [done|].
    apply then_failed in Hrest as [Hsend|(n & Hsend & Hrest)]; [by left|].
    right. exists n. split; [done|].
    apply then_failed in Hrest as [Hrecv|(buffer & Hrecv & Hdecode)]; [by left|].
    right. exists buffer. split; [done|]. by apply decode_failed_iff.
  - intros [Hconnect|(Hconnect & Hrest)]; [by left|].
    right. exists (). split; [done|]. apply then_failed.
    destruct Hrest as [Hsend|(n & Hsend & Hrest)]; [by left|].
    right. exists n. split; [done|]. apply then_failed.
    destruct Hrest as [Hrecv|(buffer & Hrecv & Hdecode)]; [by left|].
    right. exists buffer. split; [done|]. by apply decode_failed_iff.
Qed.

(** X14: [request] fails with a message exactly in these cases: the
    scheme is not [http] (its own message); or the socket is not created
    (its own message, with the error); or there is neither a literal
    address nor a domain (its own message); or there is no literal address
    and the domain does not resolve (its own message, with the domain and
    the error); or, on the socket created, the address known and the
    rendered text of this request, connecting, sending or receiving fails
    with that very message, or the parser fails on the buffer received,
    the message having that buffer in it. *)
Theorem request_failure_sources (url : URL.URL) (method : string)
    (headers : option (gmap string string))
    (body contentType : option string) (message : string) :
  http.request decoder create getIP connect send recv stringify foreachpair
    url method headers body contentType = FAILED message ↔
  URL.scheme url ≠ "http" ∧ message = "Unsupported URL scheme" ∨
  URL.scheme url = "http" ∧
  ((∃ error, create = Error error ∧
      message = "Failed to create socket: " +:+ error) ∨
   (∃ socket, create = Ok socket ∧
      (URL.ip url = None ∧ URL.domain url = None ∧
         message = "Missing URL domain or IP" ∨
       URL.ip url = None ∧
         (∃ domain error, URL.domain url = Some domain ∧
            getIP domain = Error error ∧
            message = "Failed to determine IP of domain '" +:+ domain +:+
                      "': " +:+ error) ∨
       (∃ ip, resolved getIP url ip ∧
          fails_connected decoder connect send recv socket
            {| Address.ip := ip; Address.port := URL.port url |}
            (internal._request_out stringify foreachpair
               {| Address.ip := ip; Address.port := URL.port url |} url
               method headers body contentType) message)))).
Proof.
  unfold http.request, resolved.
  destruct (decide (URL.scheme url ≠ "http")) as [Hscheme|Hscheme].
  { split.
    - intros [= <-]. by left.
    - by intros [[_ ->]|[? _]]. }
  apply dec_stable in Hscheme.
  destruct create as [error|socket].
  { split.
    - intros [= <-]. right. split; [done|]. left. by exists error.
    - intros [[? _]|[_ [(error' & [= <-] & ->)|(socket & ? & _)]]]; done. }
  destruct (URL.ip url) as [ip|].
  { rewrite connected_failed. split.
    - intros Hfails. right. split; [done|]. right. exists socket.
      split; [done|]. right; right. exists ip. split; [by left|done].
    - intros [[? _]|[_ [(error & ? & _)|(socket' & [= <-] & Hcases)]]];
        [done|done|].
      destruct Hcases as [(? & _)|[(? & _)|(ip' & [[= <-]|(? & _)] & Hfails)]];
        done. }
  destruct (URL.domain url) as [domain|].
  2: { split.
       - intros [= <-]. right. split; [done|]. right. exists socket.
         split; [done|]. by left.
       - intros [[? _]|[_ [(error & ? & _)|(socket' & [= <-] & Hcases)]]];
           [done|done|].
         destruct Hcases
           as [(_ & _ & ->)|[(_ & ? & ? & ? & _)|(ip' & [?|(_ & ? & ? & _)] & _)]];
           done. }
  destruct (getIP domain) as [error|ip] eqn:Hip.
  { split.
    - intros [= <-]. right. split; [done|]. right. exists socket.
      split; [done|]. right; left. split; [done|]. by exists domain, error.
    - intros [[? _]|[_ [(error' & ? & _)|(socket' & [= <-] & Hcases)]]];
        [done|done|].
      destruct Hcases
        as [(_ & ? & _)|[(_ & domain' & error' & [= <-] & Hip' & ->)|
                         (ip' & [?|(_ & domain' & [= <-] & Hip')] & _)]];
        [done| |done|congruence].
      rewrite Hip in Hip'. by injection Hip' as <-. }
  rewrite connected_failed. split.
  - intros Hfails. right. split; [done|]. right. exists socket.
    split; [done|]. right; right. exists ip. split; [|done].
    right. split; [done|]. by exists domain.
  - intros [[? _]|[_ [(error & ? & _)|(socket' & [= <-] & Hcases)]]];
      [done|done|].
    destruct Hcases
      as [(_ & ? & _)|[(_ & domain' & error' & [= <-] & Hip' & _)|
                       (ip' & [?|(_ & domain' & [= <-] & Hip')] & Hfails)]];
      [done|congruence|done|].
    rewrite Hip in Hip'. by injection Hip' as <-.
Qed.

(** X15: [put] and [post] refuse a content type without a body before
    anything else, whatever the URL and the collaborators; so when they
    answer and a content type was given, there was a body. *)
Theorem verbs_require_body (url : URL.URL) (upid : UPID.UPID)
    (path : option string) (headers : option (gmap string string))
    (body contentType : option string) :
  (body = None → contentType ≠ None →
     http.put decoder create getIP connect send recv stringify foreachpair
       url headers body contentType
     = FAILED "Attempted to do a PUT with a Content-Type but no body" ∧
     http.post decoder create getIP connect send recv stringify foreachpair
       url headers body contentType
     = FAILED "Attempted to do a POST with a Content-Type but no body" ∧
     http.post_upid decoder create getIP connect send recv stringify
       foreachpair upid path headers body contentType
     = FAILED "Attempted to do a POST with a Content-Type but no body") ∧
  (∀ response,
     http.put decoder create getIP connect send recv stringify foreachpair
       url headers body contentType = READY response ∨
     http.post decoder create getIP connect send recv stringify foreachpair
       url headers body contentType = READY response ∨
     http.post_upid decoder create getIP connect send recv stringify
       foreachpair upid path headers body contentType = READY response →
     contentType ≠ None → body ≠ None).
Proof.
  unfold http.post_upid, http.put, http.post. split.
  - intros -> Hct. by rewrite bool_decide_true, bool_decide_true by done.
  - intros response Hready Hct ->.
    rewrite bool_decide_true, bool_decide_true in Hready by done.
    simpl in Hready. by destruct Hready as [|[|]].
Qed.
Lemma remove_question_mark (query : string) :
  stout.remove ("?" +:+ query) "?" stout.PREFIX = query.
Proof.
  unfold stout.remove, stout.startsWith, stout.drop_prefix.
  rewrite string_app_cons, string_app_nil_l. simpl.
  destruct query; simpl; by rewrite ?Nat.sub_0_r, ?substring_all.
Qed.

(** X16: the question mark in front of the query that [get] takes with a
    process identifier is optional. *)
Theorem get_upid_question_mark (upid : UPID.UPID) (path : option string)
    (query : string) (headers : option (gmap string string)) :
  stout.startsWith query "?" = false →
  http.get_upid decoder create getIP connect send recv stringify foreachpair
    http_decode upid path (Some ("?" +:+ query)) headers
  = http.get_upid decoder create getIP connect send recv stringify foreachpair
      http_decode upid path (Some query) headers.
Proof.
  intros Hstart. unfold http.get_upid. rewrite remove_question_mark.
  unfold stout.remove at 1. by rewrite Hstart.
Qed.

Lemma address_eta (address : Address.Address) :
  {| Address.ip := Address.ip address; Address.port := Address.port address |}
  = address.
Proof. by destruct address. Qed.

Lemma request_literal_ready (url : URL.URL) (method : string)
    (headers : option (gmap string string))
    (body contentType : option string) (response : Response) (ip : N) :
  URL.scheme url = "http" → URL.ip url = Some ip →
  http.request decoder create getIP connect send recv stringify foreachpair
    url method headers body contentType = READY response →
  ∃ socket, create = Ok socket ∧
    connect socket {| Address.ip := ip; Address.port := URL.port url |}
      = READY ().
Proof.
  intros Hscheme Hip. unfold http.request.
  rewrite decide_False by (by intros ?). rewrite Hip.
  destruct create as [|socket]; [done|].
  intros ([] & Hconnect & _)%then_ready. by exists socket.
Qed.

(** X17: [get] and [post] with a process identifier do not depend on the
    resolver, and when [get] answers, the socket was connected to the
    address of the process. *)
Theorem upid_never_resolves (getIP' : string → Try N) (upid : UPID.UPID)
    (path query : option string) (headers : option (gmap string string))
    (body contentType : option string) :
  http.get_upid decoder create getIP connect send recv stringify foreachpair
    http_decode upid path query headers
  = http.get_upid decoder create getIP' connect send recv stringify foreachpair
      http_decode upid path query headers ∧
  http.post_upid decoder create getIP connect send recv stringify foreachpair
    upid path headers body contentType
  = http.post_upid decoder create getIP' connect send recv stringify
      foreachpair upid path headers body contentType ∧
  (∀ response,
     http.get_upid decoder create getIP connect send recv stringify
       foreachpair http_decode upid path query headers = READY response →
     ∃ socket, create = Ok socket ∧
               connect socket (UPID.address upid) = READY ()).
Proof.
  split; [|split].
  - unfold http.get_upid, http.get, http.request.
    destruct query as [query|]; [|by destruct path].
    destruct (query.decode _ _); [done|]. by destruct path.
  - unfold http.post_upid, http.post, http.request.
    destruct (_ && _); [done|]. by destruct path.
  - intros response Hready.
    assert (Hurl : ∃ url,
      http.request decoder create getIP connect send recv stringify
        foreachpair url "GET" headers None None = READY response ∧
      URL.scheme url = "http" ∧
      URL.ip url = Some (Address.ip (UPID.address upid)) ∧
      URL.port url = Address.port (UPID.address upid)).
    { unfold http.get_upid, http.get in Hready.
      destruct query as [query|]; [destruct (query.decode _ _); [done|]|];
        eexists; (split; [exact Hready|]); by destruct path. }
    destruct Hurl as (url & Hrequest & Hscheme & Hip & Hport).
    destruct (request_literal_ready _ _ _ _ _ _ _ Hscheme Hip Hrequest)
      as (socket & Hcreate & Hconnect).
    exists socket. split; [done|]. by rewrite Hport, address_eta in Hconnect.
Qed.



End pipeline.

(** The example network answers a [GET] of the example URL. *)
Lemma request_succeeds_iff_witness :
  http.request example_decoder example_create example_getIP example_connect
    example_send example_recv example_stringify map_to_list example_url
    "GET" None None None = READY "HTTP/1.1 200 OK".
Proof.
  apply (proj2 (request_succeeds_iff example_decoder example_create
                  example_getIP example_connect example_send example_recv
                  example_stringify map_to_list example_url "GET" None None
                  None "HTTP/1.1 200 OK")).
  split; [reflexivity|].
  eexists (), 167772161%N, _, "HTTP/1.1 200 OK".
  split; [reflexivity|]. split; [|repeat split; reflexivity].
  right. split; [reflexivity|]. exists "host". split; reflexivity.
Defined.

(** A peer that refuses the connection: its message is the failure. *)
Lemma request_failure_sources_witness :
  http.request example_decoder example_create example_getIP example_refuse
    example_send example_recv example_stringify map_to_list example_url
    "GET" None None None = FAILED "Connection refused".
Proof.
  apply (proj2 (request_failure_sources example_decoder example_create
                  example_getIP example_refuse example_send example_recv
                  example_stringify map_to_list example_url "GET" None None
                  None "Connection refused")).
  right. split; [reflexivity|]. right. exists (). split; [reflexivity|].
  right; right. exists 167772161%N. split.
  - right. split; [reflexivity|]. exists "host". split; reflexivity.
  - left. reflexivity.
Defined.

(** A [PUT] with a content type and no body, on the example network. *)
Lemma verbs_require_body_witness :
  http.put example_decoder example_create example_getIP example_connect
    example_send example_recv example_stringify map_to_list example_url
    None None (Some "text/plain")
  = FAILED "Attempted to do a PUT with a Content-Type but no body".
Proof.
  apply (verbs_require_body example_decoder example_create example_getIP
           example_connect example_send example_recv example_stringify
           map_to_list example_url example_upid None None None
           (Some "text/plain")); [reflexivity|discriminate].
Defined.

Lemma get_upid_question_mark_witness :
  stout.startsWith "a=1" "?" = false ∧
  http.get_upid example_decoder example_create example_getIP example_connect
    example_send example_recv example_stringify map_to_list percent_decode
    example_upid (Some "state") (Some "?a=1") None
  = http.get_upid example_decoder example_create example_getIP example_connect
      example_send example_recv example_stringify map_to_list percent_decode
      example_upid (Some "state") (Some "a=1") None.
Proof.
  split; [reflexivity|].
  apply (get_upid_question_mark example_decoder example_create example_getIP
           example_connect example_send example_recv example_stringify
           map_to_list percent_decode example_upid (Some "state") "a=1" None).
  reflexivity.
Defined.

Lemma upid_never_resolves_witness :
  ∃ socket, example_create = Ok socket ∧
    example_connect socket (UPID.address example_upid) = READY ().
Proof.
  apply (proj2 (proj2 (upid_never_resolves example_decoder example_create
                         example_getIP example_connect example_send
                         example_recv example_stringify map_to_list
                         percent_decode example_getIP example_upid
                         (Some "state") (Some "a=1") None None None))
           "HTTP/1.1 200 OK").
  reflexivity.
Defined.


(** The request line of that call: the query is written as it was before
    it was encoded. *)
Example get_upid_encoded_query_line :
  query.encode percent_encode map_to_list {["a b" := "c"]} = "a%20b=c" ∧
  request_target
    (URL_set_query (http.upid_url example_upid None) {["a b" := "c"]})
    (map_to_list ({["a b" := "c"]} : gmap string string))
  = "/master?a b=c".
Proof. vm_compute. by split. Qed.

(** ** The status table *)

Lemma foldl_insert_pairs {K V} `{Countable K} (pairs : list (K * V))
    (m : gmap K V) :
  foldl (λ m '(key, value), <[key := value]> m) m pairs
  = list_to_map (reverse pairs) ∪ m.
Proof.
  revert m. induction pairs as [|[key value] pairs IH]; intros m; simpl.
  - by rewrite (left_id_L ∅ (∪)).
  - rewrite IH, reverse_cons, list_to_map_app. simpl.
    rewrite <- (assoc_L (∪)). f_equal.
    rewrite insert_empty. by rewrite <- insert_union_singleton_l.
Qed.

(** X19: [initialize] gives every code of its list its line, which begins
    with the code itself; it leaves the other entries of the table as they
    are, and running it again changes nothing. *)
Theorem initialize_table (statuses : gmap N string) :
  (∀ code line, (code, line) ∈ status_lines →
     initialize statuses !! code = Some line ∧
     String.prefix (pretty code +:+ " ") line = true) ∧
  (∀ code, code ∉ status_lines.*1 →
     initialize statuses !! code = statuses !! code) ∧
  initialize (initialize statuses) = initialize statuses.
Proof.
  unfold initialize. rewrite !foldl_insert_pairs.
  assert (Hnodup : NoDup (reverse status_lines).*1).
  { apply (bool_decide_unpack _). by vm_compute. }
  assert (Hprefix : forallb (λ '(code, line),
                               String.prefix (pretty code +:+ " ") line)
                            status_lines = true) by (by vm_compute).
  split; [|split].
  - intros code line Hin. split.
    + apply lookup_union_Some_l, elem_of_list_to_map_1; [done|].
      by apply elem_of_reverse.
    + rewrite forallb_forall in Hprefix.
      by apply (Hprefix (code, line)), list_elem_of_In.
  - intros code Hout. rewrite lookup_union_r; [done|].
    apply not_elem_of_list_to_map_1. by rewrite fmap_reverse, elem_of_reverse.
  - by rewrite (assoc_L (∪)), (idemp_L (∪)).
Qed.

Lemma initialize_table_witness :
  initialize ∅ !! 404%N = Some "404 Not Found" ∧
  String.prefix (pretty 404%N +:+ " ") "404 Not Found" = true.
Proof.
  apply (proj1 (initialize_table ∅) 404%N "404 Not Found").
  apply (bool_decide_unpack _). by vm_compute.
Defined.
